(** * mbtool [utilities]: the AROMA installer generator

    A shallow embedding of [generate_aroma_config] and of the
    [AromaGenerator] class of [mbtool/utilities.cpp], with the properties
    of the template rewrite and of the archive builder.

    Byte strings ([std::string], [std::vector<unsigned char>]) are lists of
    [ascii]; integers are [Z] or [N] with the conversions of the C++ code
    written out; calls into the operating system and into minizip are
    recorded in a trace, their results being supplied by the environment. *)

From Stdlib Require Import Ascii String DecimalString.
From Stdlib Require Import ZArith NArith Lia Bool Arith List Permutation.
Import ListNotations.

Set Implicit Arguments.
Local Open Scope list_scope.

(** ** Byte strings *)

Definition str := list ascii.

Definition lit (s : string) : str := list_ascii_of_string s.

Definition NUL : ascii := "000"%char.
Definition TAB : ascii := "009"%char.
Definition LF : ascii := "010"%char.
Definition DQUOTE : ascii := "034"%char.
Definition BACKSLASH : ascii := "\"%char.

(** A C++ string literal, written with ['] for the double quote, escaped
    or not: the escapes [\n], [\t] and [\\] are decoded. *)
Fixpoint c_literal_aux (s : str) : str :=
  match s with
  | [] => []
  | c :: rest =>
      if Ascii.eqb c BACKSLASH then
        match rest with
        | d :: rest' =>
            (if Ascii.eqb d "n" then LF
             else if Ascii.eqb d "t" then TAB
             else if Ascii.eqb d "'" then DQUOTE
             else d) :: c_literal_aux rest'
        | [] => [c]
        end
      else (if Ascii.eqb c "'" then DQUOTE else c) :: c_literal_aux rest
  end.

Definition c_literal (s : string) : str := c_literal_aux (lit s).

(** [std::string::c_str] read as a C string: the bytes before the first
    NUL. *)
Fixpoint c_str (s : str) : str :=
  match s with
  | [] => []
  | c :: rest => if Ascii.eqb c NUL then [] else c :: c_str rest
  end.

Fixpoint str_eqb (a b : str) : bool :=
  match a, b with
  | [], [] => true
  | x :: a', y :: b' => Ascii.eqb x y && str_eqb a' b'
  | _, _ => false
  end.

(** [starts_with p s]: [p] is a prefix of [s]. *)
Fixpoint starts_with (p s : str) : bool :=
  match p, s with
  | [], _ => true
  | _ :: _, [] => false
  | x :: p', y :: s' => Ascii.eqb x y && starts_with p' s'
  end.

(** [std::string::find(from)]: the offset of the first occurrence. *)
Fixpoint find (from s : str) : option nat :=
  if starts_with from s then Some 0%nat
  else match s with
       | [] => None
       | _ :: s' => option_map S (find from s')
       end.

Definition contains (tok s : str) : bool :=
  match find tok s with Some _ => true | None => false end.

(** [std::string::substr(pos)]: throws [std::out_of_range] (here [None])
    when [pos] exceeds the size. *)
Definition substr (s : str) (pos : nat) : option str :=
  if (pos <=? length s)%nat then Some (skipn pos s) else None.

(** Modelled from the spec: [util::replace_all] (util/string.cpp is not
    among the sources).  Literal substring substitution: the occurrences of
    [from] are replaced from left to right, the search resuming after the
    inserted text, so that replaced text is not scanned again; an empty
    [from] leaves the string unchanged. *)
Fixpoint replace_loop (fuel : nat) (from to s : str) : str :=
  match fuel with
  | O => s
  | S fuel' =>
      match find from s with
      | None => s
      | Some pos =>
          firstn pos s ++ to
            ++ replace_loop fuel' from to (skipn (pos + length from) s)
      end
  end.

(** Modelled from the spec: [util::replace_all], see [replace_loop]; the
    fuel exceeds the number of replacements a string of this length
    allows. *)
Definition replace_all (source from to : str) : str :=
  match from with
  | [] => source
  | _ :: _ => replace_loop (S (length source)) from to source
  end.

(** The arguments of a [printf]-like call. *)
Inductive fmt_arg :=
| ArgS (s : str)
| ArgD (z : Z)
| ArgZu (n : N).

(** The decimal digits that [%zu] and [%d] print. *)
Definition format_zu (n : N) : str := lit (NilZero.string_of_uint (N.to_uint n)).
Definition format_d (z : Z) : str := lit (NilZero.string_of_int (Z.to_int z)).

(** Modelled from the spec: [util::format] (util/string.cpp is not among
    the sources), a [printf] that returns a [std::string].  Only the
    directives the callers use are interpreted: [%s] (a C string), [%d]
    and [%zu]; a directive without an argument of its kind, which C leaves
    undefined, ends the output. *)
Fixpoint format (fmt : str) (args : list fmt_arg) : str :=
  match fmt with
  | [] => []
  | c :: rest =>
      if Ascii.eqb c "%" then
        match rest with
        | d :: rest1 =>
            if Ascii.eqb d "s" then
              match args with
              | ArgS s :: args' => s ++ format rest1 args'
              | _ => []
              end
            else if Ascii.eqb d "d" then
              match args with
              | ArgD z :: args' => format_d z ++ format rest1 args'
              | _ => []
              end
            else if Ascii.eqb d "z" then
              match rest1 with
              | u :: rest2 =>
                  if Ascii.eqb u "u" then
                    match args with
                    | ArgZu n :: args' => format_zu n ++ format rest2 args'
                    | _ => []
                    end
                  else c :: d :: u :: format rest2 args
              | [] => [c; d]
              end
            else c :: d :: format rest1 args
        | [] => [c]
        end
      else c :: format rest args
  end.

(** ** ROMs and the environment of the template rewrite *)

Module Rom.
Record t := {
  id : str;
  system_path : str;
  cache_path : str;
  data_path : str
}.
End Rom.

(** The operating system, as [add_file] sees one source file: the result of
    [fstat] ([st_mode], or [None] when it fails), the offset that
    [lseek64(fd, 0, SEEK_CUR)] reports after the seek to the end, and the
    results of the successive [read] calls (the count returned and the
    bytes put in the buffer); once these are used up, [read] returns 0. *)
Record source_file := {
  fstat_mode : option Z;
  lseek_size : Z;
  reads : list (Z * str)
}.

Inductive node_kind := NodeFile | NodeDirectory | NodeSymlink | NodeSpecial.

(** The current [FTSENT]: [fts_path] and [fts_accpath] are C strings and
    are modelled by their bytes before the terminator. *)
Record WalkNode := {
  fts_path : str;
  fts_accpath : str;
  fts_kind : node_kind
}.

(** Everything the code reads from outside.
    - [MBP_VERSION]: the macro of that name; [size_bits]: the width of
      [size_t]; [FTS_OK], [FTS_Fail]: the [Action] constants of util/fts.h
      (none of these is defined in the sources);
    - [installed]: the ROMs found by [Roms::add_installed]; [load_file]: for
      a path, the [name] field of the [RomConfig] that [RomConfig::load_file]
      fills in ([None] when the load fails);
    - [open64]: the file behind a path ([None] when [open64] fails);
      [file_read_all]: the bytes [util::file_read_all] returns;
    - [zipOpen2_64]: whether the archive handle is non-null; [zip_result]:
      the code a minizip call returns when it is the [k]-th call recorded;
    - [walk]: the nodes the traversal of a root yields, in order. *)
Record Env := {
  MBP_VERSION : str;
  size_bits : N;
  FTS_OK : Z;
  FTS_Fail : Z;
  installed : list Rom.t;
  load_file : str -> option str;
  open64 : str -> option source_file;
  file_read_all : str -> option str;
  zipOpen2_64 : str -> bool;
  zip_result : nat -> Z;
  walk : str -> list WalkNode
}.

(** Arithmetic of [size_t]. *)
Definition size_add (E : Env) (a b : N) : N := ((a + b) mod 2 ^ size_bits E)%N.

Definition TOKEN_VERSION : str := lit "@MBTOOL_VERSION@".
Definition TOKEN_MENU_ITEMS : str := lit "@ROM_MENU_ITEMS@".
Definition TOKEN_SELECTION_ITEMS : str := lit "@ROM_SELECTION_ITEMS@".
Definition TOKEN_FIRST_INDEX : str := lit "@FIRST_INDEX@".
Definition TOKEN_LAST_INDEX : str := lit "@LAST_INDEX@".

Definition config_path (rom : Rom.t) : str :=
  format (c_literal "/data/media/0/MultiBoot/%s/config.json")
         [ArgS (c_str (Rom.id rom))].

(** The [name] of one iteration: the ROM's id, overwritten by the
    configured name when the configuration loads. *)
Definition rom_name (E : Env) (rom : Rom.t) : str :=
  match load_file E (config_path rom) with
  | Some name => name
  | None => Rom.id rom
  end.

Definition menu_item (name : str) : str :=
  format (c_literal "\'%s\', \'\', \'@default\',\n") [ArgS (c_str name)].

Definition selection_item (index : N) (rom_id name : str) : str :=
  format (c_literal
    "if prop(\'operations.prop\', \'selected\') == \'%zu\' then\n    setvar(\'romid\', \'%s\');\n    setvar(\'romname\', \'%s\');\nendif;\n")
    [ArgZu index; ArgS (c_str rom_id); ArgS (c_str name)].

(** The [for] loop of [generate_aroma_config], from index [i] on, with the
    two strings it appends to.  [i] stays below the size of the vector, so
    [++i] does not wrap; [i + 2 + 1] is computed in [size_t]. *)
Fixpoint rom_items (E : Env) (i : N) (roms : list Rom.t)
         (rom_menu_items rom_selection_items : str) : str * str :=
  match roms with
  | [] => (rom_menu_items, rom_selection_items)
  | rom :: rest =>
      let name := rom_name E rom in
      rom_items E (i + 1)%N rest
        (rom_menu_items ++ menu_item name)
        (rom_selection_items
           ++ selection_item (size_add E (size_add E i 2) 1) (Rom.id rom) name)
  end.

Definition rom_menu_items (E : Env) : str :=
  fst (rom_items E 0%N (installed E) [] []).

Definition rom_selection_items (E : Env) : str :=
  snd (rom_items E 0%N (installed E) [] []).

Definition first_index (E : Env) : str := format (lit "%d") [ArgD (2 + 1)].

Definition last_index (E : Env) : str :=
  format (lit "%zu") [ArgZu (size_add E 2 (N.of_nat (length (installed E))))].

(** The six [(from, to)] pairs, in the order of the calls. *)
Definition substitutions (E : Env) : list (str * str) :=
  [ (c_literal "\t", c_literal "\\t");
    (TOKEN_VERSION, MBP_VERSION E);
    (TOKEN_MENU_ITEMS, rom_menu_items E);
    (TOKEN_SELECTION_ITEMS, rom_selection_items E);
    (TOKEN_FIRST_INDEX, first_index E);
    (TOKEN_LAST_INDEX, last_index E) ].

Definition apply_substitution (s : str) (ft : str * str) : str :=
  replace_all s (fst ft) (snd ft).

Definition apply_substitutions (steps : list (str * str)) (s : str) : str :=
  fold_left apply_substitution steps s.

Definition generate_aroma_config (E : Env) (data : str) : str :=
  let str_data := data in
  let str_data := replace_all str_data (c_literal "\t") (c_literal "\\t") in
  let str_data := replace_all str_data TOKEN_VERSION (MBP_VERSION E) in
  let str_data := replace_all str_data TOKEN_MENU_ITEMS (rom_menu_items E) in
  let str_data :=
    replace_all str_data TOKEN_SELECTION_ITEMS (rom_selection_items E) in
  let str_data := replace_all str_data TOKEN_FIRST_INDEX (first_index E) in
  let str_data := replace_all str_data TOKEN_LAST_INDEX (last_index E) in
  str_data.

(** ** The archive builder *)

Local Open Scope Z_scope.

(** Modelled from the spec: [ZIP_OK] of minizip's zip.h (not among the
    sources), the code of a successful call. *)
Definition ZIP_OK : Z := 0.

(** Modelled from the spec: [Z_DEFLATED] of zlib.h (not among the sources);
    the spec fixes the method, deflate, not its number. *)
Definition Z_DEFLATED : Z := 8.

(** Modelled from the spec: [Z_DEFAULT_COMPRESSION] of zlib.h (not among
    the sources), the default level of the spec. *)
Definition Z_DEFAULT_COMPRESSION : Z := -1.

Record tm_zip := {
  tm_sec : Z; tm_min : Z; tm_hour : Z; tm_mday : Z; tm_mon : Z; tm_year : Z
}.

Record zip_fileinfo := {
  tmz_date : tm_zip;
  dosDate : Z;
  internal_fa : Z;
  external_fa : Z
}.

(** [memset(&zi, 0, sizeof(zi))] *)
Definition zi_zero : zip_fileinfo :=
  {| tmz_date := {| tm_sec := 0; tm_min := 0; tm_hour := 0;
                    tm_mday := 0; tm_mon := 0; tm_year := 0 |};
     dosDate := 0; internal_fa := 0; external_fa := 0 |}.

Definition set_external_fa (zi : zip_fileinfo) (v : Z) : zip_fileinfo :=
  {| tmz_date := tmz_date zi; dosDate := dosDate zi;
     internal_fa := internal_fa zi; external_fa := v |}.

Inductive log_level := LogD | LogW | LogE.

(** The calls made to the outside, with their arguments and results;
    [Returned] marks the value a handler hands back to the walker. *)
Inductive call :=
| Log (level : log_level)
| CallOpen64 (path : str) (ok : bool)
| CallFstat (ok : bool)
| CallLseek64
| CallRead (n : Z)
| CallFileReadAll (path : str) (ok : bool)
| CallZipOpen2_64 (zippath : str) (ok : bool)
| CallZipOpenNewFileInZip2_64
    (filename : str) (zi : zip_fileinfo) (method level raw : Z)
    (zip64 : bool) (ret : Z)
| CallZipWriteInFileInZip (buf : str) (len : Z) (ret : Z)
| CallZipCloseFileInZip
| CallZipClose (ret : Z)
| Returned (kind : node_kind) (r : Z).

(** Computations that make calls: given the number of calls made before,
    the result and the calls made, in order. *)
Definition M (A : Type) : Type := nat -> A * list call.

Definition ret {A} (a : A) : M A := fun _ => (a, []).

Definition bind {A B} (m : M A) (f : A -> M B) : M B :=
  fun k =>
    let (a, l1) := m k in
    let (b, l2) := f a (k + length l1)%nat in
    (b, l1 ++ l2).

Declare Scope m_scope.
Delimit Scope m_scope with m.
Notation "x <- m ;; k" := (bind m (fun x => k))
  (at level 61, m at next level, right associativity) : m_scope.
Notation "m ;; k" := (bind m (fun _ => k))
  (at level 61, right associativity) : m_scope.
Local Open Scope m_scope.

Definition emit (c : call) : M unit := fun _ => (tt, [c]).

(** A minizip call that returns a code: the environment chooses it. *)
Definition zip_call (E : Env) (c : Z -> call) : M Z :=
  fun k => let r := zip_result E k in (r, [c r]).

Definition LOGD : M unit := emit (Log LogD).
Definition LOGW : M unit := emit (Log LogW).
Definition LOGE : M unit := emit (Log LogE).

Definition to_uint64 (z : Z) : Z := z mod 2 ^ 64.
Definition to_unsigned (z : Z) : Z := z mod 2 ^ 32.

(** [size >= ((1ull << 32) - 1)] on a [uint64_t]. *)
Definition zip64_needed (size : Z) : bool :=
  Z.shiftl 1 32 - 1 <=? to_uint64 size.

Definition zipOpenNewFileInZip2_64 (E : Env) (filename : str)
    (zi : zip_fileinfo) (method level raw : Z) (zip64 : bool) : M Z :=
  zip_call E (CallZipOpenNewFileInZip2_64 filename zi method level raw zip64).

Definition zipWriteInFileInZip (E : Env) (buf : str) (len : Z) : M Z :=
  zip_call E (CallZipWriteInFileInZip (firstn (Z.to_nat (to_unsigned len)) buf)
                                      (to_unsigned len)).

Definition zipCloseFileInZip : M unit := emit CallZipCloseFileInZip.

(** [add_file(name, contents)] *)
Definition add_file_contents (E : Env) (name contents : str) : M bool :=
  let zip64 := zip64_needed (Z.of_nat (length contents)) in
  let zi := zi_zero in
  r <- zipOpenNewFileInZip2_64 E name zi Z_DEFLATED Z_DEFAULT_COMPRESSION 0
         zip64 ;;
  if negb (r =? ZIP_OK) then
    LOGW ;; ret false
  else
    r <- zipWriteInFileInZip E contents (Z.of_nat (length contents)) ;;
    if negb (r =? ZIP_OK) then
      LOGW ;; zipCloseFileInZip ;; ret false
    else
      zipCloseFileInZip ;; ret true.

(** The [while] loop of [add_file(name, path)].  [Some b]: the function
    returned [b] from inside the loop; [None]: the loop ended, [read]
    having returned the [n] given with it. *)
Fixpoint copy_loop (E : Env) (rs : list (Z * str)) : M (option bool * Z) :=
  match rs with
  | [] => emit (CallRead 0) ;; ret (None, 0)
  | (n, buf) :: rest =>
      emit (CallRead n) ;;
      if 0 <? n then
        r <- zipWriteInFileInZip E buf n ;;
        if negb (r =? ZIP_OK) then
          LOGW ;; zipCloseFileInZip ;; ret (Some false, n)
        else copy_loop E rest
      else ret (None, n)
  end.

(** [add_file(name, path)] *)
Definition add_file_path (E : Env) (name path : str) : M bool :=
  match open64 E path with
  | None => emit (CallOpen64 path false) ;; LOGE ;; ret false
  | Some f =>
      emit (CallOpen64 path true) ;;
      match fstat_mode f with
      | None => emit (CallFstat false) ;; LOGE ;; ret false
      | Some st_mode =>
          emit (CallFstat true) ;;
          emit CallLseek64 ;;
          emit CallLseek64 ;;
          let size := to_uint64 (lseek_size f) in
          emit CallLseek64 ;;
          let zip64 := zip64_needed size in
          let zi := zi_zero in
          let zi := set_external_fa zi (Z.shiftl (Z.land st_mode 511) 16) in
          r <- zipOpenNewFileInZip2_64 E name zi Z_DEFLATED
                 Z_DEFAULT_COMPRESSION 0 zip64 ;;
          if negb (r =? ZIP_OK) then
            LOGW ;; ret false
          else
            x <- copy_loop E (reads f) ;;
            match x with
            | (Some b, _) => ret b
            | (None, n) =>
                if n <? 0 then
                  zipCloseFileInZip ;; LOGE ;; ret false
                else
                  zipCloseFileInZip ;; ret true
            end
      end
  end.

Definition TEMPLATE_NAME : str :=
  c_literal "META-INF/com/google/android/aroma-config.in".
Definition CONFIG_NAME : str :=
  c_literal "META-INF/com/google/android/aroma-config".

(** [on_pre_execute] *)
Definition on_pre_execute (E : Env) (_zippath : str) : M bool :=
  let ok := zipOpen2_64 E _zippath in
  emit (CallZipOpen2_64 _zippath ok) ;;
  if negb ok then LOGE ;; ret false else ret true.

(** [on_post_execute] *)
Definition on_post_execute (E : Env) (success : bool) : M bool :=
  r <- zip_call E CallZipClose ;;
  ret (r =? ZIP_OK).

(** [on_reached_file]; [None] stands for the [std::out_of_range] that
    [substr] throws.  The [return false] of an [int] function returns 0. *)
Definition on_reached_file (E : Env) (_path : str) (_curr : WalkNode)
  : M (option Z) :=
  match substr (fts_path _curr) (length _path + 1)%nat with
  | None => ret None
  | Some name =>
      LOGD ;;
      if str_eqb name TEMPLATE_NAME then
        match file_read_all E (fts_accpath _curr) with
        | None =>
            emit (CallFileReadAll (fts_accpath _curr) false) ;;
            LOGE ;; ret (Some 0)
        | Some data =>
            emit (CallFileReadAll (fts_accpath _curr) true) ;;
            let data := generate_aroma_config E data in
            let name := CONFIG_NAME in
            r <- add_file_contents E name data ;;
            ret (Some (if r then FTS_OK E else FTS_Fail E))
        end
      else
        r <- add_file_path E name (fts_accpath _curr) ;;
        ret (Some (if r then FTS_OK E else FTS_Fail E))
  end.

(** [on_reached_symlink] *)
Definition on_reached_symlink (E : Env) (_curr : WalkNode) : M Z :=
  LOGW ;; ret (FTS_OK E).

(** [on_reached_special_file] *)
Definition on_reached_special_file (E : Env) (_curr : WalkNode) : M Z :=
  LOGW ;; ret (FTS_OK E).

(** Modelled from the spec: [FTSWrapper::run] (util/fts.cpp is not among
    the sources).  [on_pre_execute] opens the archive, and its failure
    aborts before any traversal; each node is delivered to the handler of
    its kind, directories only being descended into; an error return stops
    the traversal and makes the walk a failure; [on_post_execute] is then
    called, and its failure overrides a prior success. *)
Definition dispatch (E : Env) (_path : str) (_curr : WalkNode)
  : M (option Z) :=
  match fts_kind _curr with
  | NodeFile => on_reached_file E _path _curr
  | NodeSymlink => r <- on_reached_symlink E _curr ;; ret (Some r)
  | NodeSpecial => r <- on_reached_special_file E _curr ;; ret (Some r)
  | NodeDirectory => ret (Some (FTS_OK E))
  end.

(** Modelled from the spec: the loop of [FTSWrapper::run] over the nodes
    of the tree; [None] when a handler throws. *)
Fixpoint traverse (E : Env) (_path : str) (nodes : list WalkNode)
  : M (option bool) :=
  match nodes with
  | [] => ret (Some true)
  | _curr :: rest =>
      r <- dispatch E _path _curr ;;
      match r with
      | None => ret None
      | Some a =>
          emit (Returned (fts_kind _curr) a) ;;
          if a =? FTS_Fail E then ret (Some false)
          else traverse E _path rest
      end
  end.

(** Modelled from the spec: [FTSWrapper::run], between its two hooks. *)
Definition run (E : Env) (_path _zippath : str) : M (option bool) :=
  ok <- on_pre_execute E _zippath ;;
  if negb ok then ret (Some false)
  else
    t <- traverse E _path (walk E _path) ;;
    match t with
    | None => ret None
    | Some success =>
        closed <- on_post_execute E success ;;
        ret (Some (success && closed))
    end.

(** Modelled from the spec: the entry record of minizip.  A successful
    [zipOpenNewFileInZip2_64] opens a record and [zipCloseFileInZip]
    finalizes it; [entry_open] tells whether a record is left open after
    the calls. *)
Definition entry_step (open : bool) (c : call) : bool :=
  match c with
  | CallZipOpenNewFileInZip2_64 _ _ _ _ _ _ r =>
      if r =? ZIP_OK then true else open
  | CallZipCloseFileInZip => false
  | _ => open
  end.

(** Modelled from the spec: whether minizip holds an open entry record
    after the calls, none being open before. *)
Definition entry_open (calls : list call) : bool :=
  fold_left entry_step calls false.

(** A read error or a write error while an entry is streamed. *)
Definition stream_error (c : call) : bool :=
  match c with
  | CallRead n => n <? 0
  | CallZipWriteInFileInZip _ _ r => negb (r =? ZIP_OK)
  | _ => false
  end.

(** The entries opened by a sequence of calls: name, file information and
    zip64 flag of each [zipOpenNewFileInZip2_64]. *)
Definition opened_entries (calls : list call)
  : list (str * zip_fileinfo * bool) :=
  flat_map (fun c =>
              match c with
              | CallZipOpenNewFileInZip2_64 fn zi _ _ _ z _ => [(fn, zi, z)]
              | _ => []
              end) calls.

Definition is_close_entry (c : call) : bool :=
  match c with CallZipCloseFileInZip => true | _ => false end.

(** Every stream error is followed by a [zipCloseFileInZip]. *)
Fixpoint errors_closed (calls : list call) : bool :=
  match calls with
  | [] => true
  | c :: rest =>
      (if stream_error c then existsb is_close_entry rest else true)
      && errors_closed rest
  end.

(** The calls of [add_file(name, path)] once the entry is open, with the
    value returned: the chunks read and written, then the end of the file,
    a read error or a write error. *)
Inductive streamed : bool -> list call -> Prop :=
| streamed_eof :
    streamed true [CallRead 0; CallZipCloseFileInZip]
| streamed_read_error (n : Z) :
    n < 0 ->
    streamed false [CallRead n; CallZipCloseFileInZip; Log LogE]
| streamed_write_error (n : Z) (buf : str) (len r : Z) :
    0 < n -> r <> ZIP_OK ->
    streamed false [CallRead n; CallZipWriteInFileInZip buf len r;
                    Log LogW; CallZipCloseFileInZip]
| streamed_chunk (n : Z) (buf : str) (len : Z) (b : bool) (rest : list call) :
    0 < n -> streamed b rest ->
    streamed b (CallRead n :: CallZipWriteInFileInZip buf len ZIP_OK :: rest).

(** The calls made while one node is handled: neither [zipClose] nor the
    walker's [Returned] mark. *)
Definition inner_call (c : call) : bool :=
  match c with
  | CallZipClose _ | Returned _ _ => false
  | _ => true
  end.

(** ** Templates whose tokens stand apart *)

Inductive token :=
| TokVersion | TokMenuItems | TokSelectionItems | TokFirstIndex | TokLastIndex.

Definition token_text (t : token) : str :=
  match t with
  | TokVersion => TOKEN_VERSION
  | TokMenuItems => TOKEN_MENU_ITEMS
  | TokSelectionItems => TOKEN_SELECTION_ITEMS
  | TokFirstIndex => TOKEN_FIRST_INDEX
  | TokLastIndex => TOKEN_LAST_INDEX
  end.

(** What the code substitutes for a token. *)
Definition token_value (E : Env) (t : token) : str :=
  match t with
  | TokVersion => MBP_VERSION E
  | TokMenuItems => rom_menu_items E
  | TokSelectionItems => rom_selection_items E
  | TokFirstIndex => first_index E
  | TokLastIndex => last_index E
  end.

(** A template cut into plain text and tokens. *)
Inductive piece :=
| Text (s : str)
| Tok (t : token).

Definition piece_text (p : piece) : str :=
  match p with
  | Text s => s
  | Tok t => token_text t
  end.

Definition flatten (ps : list piece) : str := concat (map piece_text ps).

Definition is_at (c : ascii) : bool := Ascii.eqb c "@".

(** The characters between the two [@] of a token. *)
Definition is_body_char (c : ascii) : bool :=
  existsb (Ascii.eqb c) (lit "ABCDEFGHIJKLMNOPQRSTUVWXYZ_").

Definition is_sep (c : ascii) : bool := negb (is_at c) && negb (is_body_char c).

Definition has_sep (s : str) : bool := existsb is_sep s.

(** Every [@] of the text stands between two separators of the text. *)
Fixpoint guarded (prev_sep : bool) (s : str) : bool :=
  match s with
  | [] => true
  | c :: rest =>
      if is_at c then
        prev_sep
        && match rest with d :: _ => is_sep d | [] => false end
        && guarded false rest
      else guarded (is_sep c) rest
  end.

Definition inert (s : str) : bool := guarded false s.

(** The texts are inert and a separator stands between any two tokens;
    [seen]: a separator was met since the last token. *)
Fixpoint separated (seen : bool) (ps : list piece) : bool :=
  match ps with
  | [] => true
  | Text s :: rest => inert s && separated (seen || has_sep s) rest
  | Tok _ :: rest => seen && separated false rest
  end.

Definition well_formed_template (ps : list piece) : bool := separated true ps.

Definition no_at (s : str) : bool := forallb (fun c => negb (is_at c)) s.
Definition no_tab (s : str) : bool := forallb (fun c => negb (Ascii.eqb c TAB)) s.

(** The version, the ids and the names contain no [@]. *)
Definition values_no_at (E : Env) : Prop :=
  no_at (MBP_VERSION E) = true
  /\ forall rom, In rom (installed E) ->
       no_at (Rom.id rom) = true /\ no_at (rom_name E rom) = true.

(** The version, the ids and the names contain no tab. *)
Definition values_no_tab (E : Env) : Prop :=
  no_tab (MBP_VERSION E) = true
  /\ forall rom, In rom (installed E) ->
       no_tab (Rom.id rom) = true /\ no_tab (rom_name E rom) = true.

(** What one substitution does to a piece. *)
Definition step_piece (p : piece) (ft : str * str) : piece :=
  match p with
  | Text s => Text (replace_all s (fst ft) (snd ft))
  | Tok t => if str_eqb (token_text t) (fst ft) then Text (snd ft) else Tok t
  end.

(** What the six substitutions make of a piece. *)
Definition final_piece (E : Env) (p : piece) : piece :=
  match p with
  | Text s => Text (replace_all s (c_literal "\t") (c_literal "\\t"))
  | Tok t => Text (token_value E t)
  end.

(** A separator is met before any [@]. *)
Fixpoint sep_first (s : str) : bool :=
  match s with
  | [] => true
  | c :: rest =>
      if is_at c then false else if is_sep c then true else sep_first rest
  end.

(** The characters of a token between its two [@]. *)
Definition token_body (t : token) : str := removelast (tl (token_text t)).

Definition is_digit (c : ascii) : bool :=
  existsb (Ascii.eqb c) (lit "0123456789").

(** ** Sample environments *)

(** No ROM installed; every call succeeds. *)
Definition env_empty : Env :=
  {| MBP_VERSION := lit "8.0.0"; size_bits := 64;
     FTS_OK := 0; FTS_Fail := 1;
     installed := []; load_file := fun _ => None;
     open64 := fun _ => None; file_read_all := fun _ => None;
     zipOpen2_64 := fun _ => true; zip_result := fun _ => ZIP_OK;
     walk := fun _ => [] |}.

Definition rom_primary : Rom.t :=
  {| Rom.id := lit "primary"; Rom.system_path := lit "/system";
     Rom.cache_path := lit "/cache"; Rom.data_path := lit "/data" |}.

Definition rom_dual : Rom.t :=
  {| Rom.id := lit "dual"; Rom.system_path := lit "/system/multiboot/dual/system";
     Rom.cache_path := lit "/cache/multiboot/dual/cache";
     Rom.data_path := lit "/data/multiboot/dual/data" |}.

(** Two ROMs installed, the second one with a configured name. *)
Definition env_two : Env :=
  {| MBP_VERSION := lit "8.0.0"; size_bits := 64;
     FTS_OK := 0; FTS_Fail := 1;
     installed := [rom_primary; rom_dual];
     load_file := fun path =>
       if str_eqb path (lit "/data/media/0/MultiBoot/dual/config.json")
       then Some (lit "My ROM") else None;
     open64 := fun _ => None; file_read_all := fun _ => None;
     zipOpen2_64 := fun _ => true; zip_result := fun _ => ZIP_OK;
     walk := fun _ => [] |}.

(** A tree with a symlink, the template, and a file of 2^32 - 1 bytes
    whose reading fails after the first chunk. *)
Definition template_node : WalkNode :=
  {| fts_path := lit "/tmp/aroma/META-INF/com/google/android/aroma-config.in";
     fts_accpath := lit "aroma-config.in"; fts_kind := NodeFile |}.

Definition big_node : WalkNode :=
  {| fts_path := lit "/tmp/aroma/big.img";
     fts_accpath := lit "big.img"; fts_kind := NodeFile |}.

Definition link_node : WalkNode :=
  {| fts_path := lit "/tmp/aroma/link";
     fts_accpath := lit "link"; fts_kind := NodeSymlink |}.

Definition big_file : source_file :=
  {| fstat_mode := Some 33188%Z;
     lseek_size := (2 ^ 32 - 1)%Z;
     reads := [(3%Z, lit "abc"); ((-1)%Z, [])] |}.

Definition env_tree : Env :=
  {| MBP_VERSION := lit "8.0.0"; size_bits := 64;
     FTS_OK := 0; FTS_Fail := 1;
     installed := []; load_file := fun _ => None;
     open64 := fun path =>
       if str_eqb path (lit "big.img") then Some big_file else None;
     file_read_all := fun path =>
       if str_eqb path (lit "aroma-config.in")
       then Some (lit "@ROM_MENU_@ROM_MENU_ITEMS@ITEMS@") else None;
     zipOpen2_64 := fun _ => true; zip_result := fun _ => ZIP_OK;
     walk := fun _ => [link_node; template_node; big_node] |}.

(** A template whose tokens stand apart. *)
Definition sample_template : list piece :=
  [ Text (c_literal "ini_set(\'rom_version\', \'");
    Tok TokVersion;
    Text (c_literal "\');\nmenubox(\'ROMs\',\t\'Choose\',\n");
    Tok TokMenuItems;
    Text (c_literal ");\n");
    Tok TokSelectionItems;
    Text (c_literal "if cmp(prop(\'operations.prop\', \'selected\'), \'>=\', \'");
    Tok TokFirstIndex;
    Text (c_literal "\') && cmp(prop(\'operations.prop\', \'selected\'), \'<=\', \'");
    Tok TokLastIndex;
    Text (c_literal "\') then\n  goto(\'rom\');\nendif;\n") ].

(** ** The bytes copied into an entry *)

(** The bytes that the successful [zipWriteInFileInZip] calls were given. *)
Definition written_bytes (calls : list call) : str :=
  flat_map (fun c =>
              match c with
              | CallZipWriteInFileInZip buf _ r =>
                  if (r =? ZIP_OK)%Z then buf else []
              | _ => []
              end) calls.

(** The bytes that the [read] calls deliver until one returns no data. *)
Fixpoint read_bytes (rs : list (Z * str)) : str :=
  match rs with
  | [] => []
  | (n, buf) :: rest =>
      if (0 <? n)%Z then firstn (Z.to_nat n) buf ++ read_bytes rest else []
  end.

(** No [read] returns more than the size of the buffer, [sizeof(buf)]. *)
Definition reads_fit (rs : list (Z * str)) : Prop :=
  forall n buf, In (n, buf) rs -> (n <= 32768)%Z.

(** A [zipOpenNewFileInZip2_64] that returned [ZIP_OK]. *)
Definition opens_entry (c : call) : bool :=
  match c with
  | CallZipOpenNewFileInZip2_64 _ _ _ _ _ _ r => (r =? ZIP_OK)%Z
  | _ => false
  end.

(** ** The other actions of [utilities] *)

Module Device.
Record t := {
  codenames : list str;
  bootBlockDevs : list str;
  blockDevBaseDirs : list str
}.
End Device.

(** What the actions read from outside: the devices of
    [mbp::PatcherConfig], the value [util::get_property] stores for a key
    (the default being the empty string), the ROM that [Roms::find_by_id]
    finds after [add_builtin] and [add_data_roms], and the result of the
    [k]-th call recorded, for the calls that return one. *)
Record Sys := {
  devices : list Device.t;
  property : str -> str;
  find_by_id : str -> option Rom.t;
  sys_result : nat -> bool
}.

(** The calls the actions make, with their arguments and results. *)
Inductive op :=
| OpLogV
| OpLog (level : log_level)
| OpGetProperty (key : str)
| OpWipeDirectory (mountpoint : str) (wipe_media : bool) (ret : bool)
| OpDeleteRecursive (path : str) (ret : bool)
| OpRemove (path : str)
| OpChooseRom (rom_id boot_blockdev : str) (base_dirs : list str) (ret : bool)
| OpGenerate (path zippath : str) (ret : bool)
| OpUsage (error : bool).

(** Computations that make such calls: given the number of calls made
    before, the result and the calls made, in order. *)
Definition U (A : Type) : Type := nat -> A * list op.

Definition uret {A} (a : A) : U A := fun _ => (a, []).

Definition ubind {A B} (m : U A) (f : A -> U B) : U B :=
  fun k =>
    let (a, l1) := m k in
    let (b, l2) := f a (k + length l1)%nat in
    (b, l1 ++ l2).

Declare Scope u_scope.
Delimit Scope u_scope with u.
Notation "x <- m ;; k" := (ubind m (fun x => k))
  (at level 61, m at next level, right associativity) : u_scope.
Notation "m ;; k" := (ubind m (fun _ => k))
  (at level 61, right associativity) : u_scope.
Local Open Scope u_scope.

Definition say (o : op) : U unit := fun _ => (tt, [o]).

(** A call that returns a [bool]: the environment chooses it. *)
Definition ask (S : Sys) (o : bool -> op) : U bool :=
  fun k => let r := sys_result S k in (r, [o r]).

(** [wipe_directory_print] *)
Definition wipe_directory_print (S : Sys) (mountpoint : str)
    (wipe_media : bool) : U bool :=
  say OpLogV ;;
  r <- ask S (OpWipeDirectory mountpoint wipe_media) ;;
  say OpLogV ;;
  uret r.

(** [delete_recursive_print] *)
Definition delete_recursive_print (S : Sys) (path : str) : U bool :=
  say OpLogV ;;
  r <- ask S (OpDeleteRecursive path) ;;
  say OpLogV ;;
  uret r.

(** The test of the [find_if] of [switch_rom]. *)
Definition codename_matches (prop_product_device prop_build_product : str)
    (codename : str) : bool :=
  str_eqb prop_product_device codename || str_eqb prop_build_product codename.

(** The [for] loop of [switch_rom]: the first device one of whose
    codenames matches. *)
Fixpoint find_device (prop_product_device prop_build_product : str)
    (ds : list Device.t) : option Device.t :=
  match ds with
  | [] => None
  | d :: rest =>
      if existsb (codename_matches prop_product_device prop_build_product)
                 (Device.codenames d)
      then Some d
      else find_device prop_product_device prop_build_product rest
  end.

(** [switch_rom] *)
Definition switch_rom (S : Sys) (rom_id : str) : U bool :=
  say (OpGetProperty (lit "ro.product.device")) ;;
  let prop_product_device := property S (lit "ro.product.device") in
  say (OpGetProperty (lit "ro.build.product")) ;;
  let prop_build_product := property S (lit "ro.build.product") in
  say (OpLog LogD) ;;
  say (OpLog LogD) ;;
  match find_device prop_product_device prop_build_product (devices S) with
  | None => say (OpLog LogE) ;; uret false
  | Some device =>
      match Device.bootBlockDevs device with
      | [] => say (OpLog LogE) ;; uret false
      | block_dev :: _ =>
          ask S (OpChooseRom rom_id block_dev (Device.blockDevBaseDirs device))
      end
  end.

(** [wipe_system] *)
Definition wipe_system (S : Sys) (rom_id : str) : U bool :=
  match find_by_id S rom_id with
  | None => uret false
  | Some rom =>
      r <- wipe_directory_print S (Rom.system_path rom) true ;;
      say (OpRemove (c_str (Rom.system_path rom))) ;;
      uret r
  end.

(** [wipe_cache] *)
Definition wipe_cache (S : Sys) (rom_id : str) : U bool :=
  match find_by_id S rom_id with
  | None => uret false
  | Some rom =>
      r <- wipe_directory_print S (Rom.cache_path rom) true ;;
      say (OpRemove (c_str (Rom.cache_path rom))) ;;
      uret r
  end.

(** [wipe_data] *)
Definition wipe_data (S : Sys) (rom_id : str) : U bool :=
  match find_by_id S rom_id with
  | None => uret false
  | Some rom =>
      r <- wipe_directory_print S (Rom.data_path rom) false ;;
      say (OpRemove (c_str (Rom.data_path rom ++ lit "/media"))) ;;
      say (OpRemove (c_str (Rom.data_path rom))) ;;
      uret r
  end.

(** [wipe_dalvik_cache]; the [&&] evaluates its right side only when the
    left one is true. *)
Definition wipe_dalvik_cache (S : Sys) (rom_id : str) : U bool :=
  match find_by_id S rom_id with
  | None => uret false
  | Some rom =>
      let data_path := Rom.data_path rom in
      let cache_path := Rom.cache_path rom in
      let data_path := data_path ++ lit "/dalvik-cache" in
      let cache_path := cache_path ++ lit "/dalvik-cache" in
      a <- delete_recursive_print S data_path ;;
      if a then delete_recursive_print S cache_path else uret false
  end.

(** [wipe_multiboot] *)
Definition wipe_multiboot (S : Sys) (rom_id : str) : U bool :=
  match find_by_id S rom_id with
  | None => uret false
  | Some rom =>
      let multiboot_path := lit "/data/media/0/MultiBoot/" in
      let multiboot_path := multiboot_path ++ Rom.id rom in
      delete_recursive_print S multiboot_path
  end.

(** [utilities_usage] *)
Definition utilities_usage (error : bool) : U unit := say (OpUsage error).

Definition EXIT_SUCCESS : Z := 0.
Definition EXIT_FAILURE : Z := 1.

(** [utilities_main], after the set-up of the output.  [opt] is what the
    first call of [getopt_long] returns (the loop returns at the first
    option it is given, -1 meaning that there is none) and [operands] are
    [argv[optind]] and what follows, so that [argc - optind] is their
    number; [gen.run()] is a call whose result the environment gives. *)
Definition utilities_main (S : Sys) (opt : Z) (operands : list str) : U Z :=
  if negb (opt =? -1)%Z then
    if (opt =? 104)%Z then
      utilities_usage false ;; uret EXIT_SUCCESS
    else
      utilities_usage true ;; uret EXIT_FAILURE
  else
    match operands with
    | [] => utilities_usage true ;; uret EXIT_FAILURE
    | action :: args =>
        let n := length operands in
        if (str_eqb action (lit "generate") && negb (n =? 3)%nat)
           || (negb (str_eqb action (lit "generate")) && negb (n =? 2)%nat)
        then utilities_usage true ;; uret EXIT_FAILURE
        else
          r <- (if str_eqb action (lit "generate") then
                  ask S (OpGenerate (nth 0 args []) (nth 1 args []))
                else if str_eqb action (lit "switch") then
                  switch_rom S (nth 0 args [])
                else if str_eqb action (lit "wipe-system") then
                  wipe_system S (nth 0 args [])
                else if str_eqb action (lit "wipe-cache") then
                  wipe_cache S (nth 0 args [])
                else if str_eqb action (lit "wipe-data") then
                  wipe_data S (nth 0 args [])
                else if str_eqb action (lit "wipe-dalvik-cache") then
                  wipe_dalvik_cache S (nth 0 args [])
                else if str_eqb action (lit "wipe-multiboot") then
                  wipe_multiboot S (nth 0 args [])
                else
                  say (OpLog LogE) ;; uret false) ;;
          uret (if r then EXIT_SUCCESS else EXIT_FAILURE)
    end.

(** The calls that change something: all but the logs, the property reads
    and the usage text. *)
Definition changes (o : op) : bool :=
  match o with
  | OpWipeDirectory _ _ _ | OpDeleteRecursive _ _ | OpRemove _
  | OpChooseRom _ _ _ _ | OpGenerate _ _ _ => true
  | _ => false
  end.

Definition ACTIONS : list str :=
  [lit "switch"; lit "wipe-system"; lit "wipe-cache"; lit "wipe-data";
   lit "wipe-dalvik-cache"; lit "wipe-multiboot"].

Local Close Scope u_scope.

(** A device list and ROM table for the actions. *)
Definition dev_other : Device.t :=
  {| Device.codenames := [lit "hammerhead"];
     Device.bootBlockDevs := [lit "/dev/block/boot-hh"];
     Device.blockDevBaseDirs := [lit "/dev/block"] |}.

Definition dev_jflte_noboot : Device.t :=
  {| Device.codenames := [lit "jflte"; lit "jfltexx"];
     Device.bootBlockDevs := [];
     Device.blockDevBaseDirs := [lit "/dev/block"] |}.

Definition dev_jflte : Device.t :=
  {| Device.codenames := [lit "jflte"];
     Device.bootBlockDevs := [lit "/dev/block/mmcblk0p20"; lit "/dev/block/boot"];
     Device.blockDevBaseDirs := [lit "/dev/block/platform"] |}.

Definition sys_sample : Sys :=
  {| devices := [dev_other; dev_jflte; dev_jflte_noboot];
     property := fun key =>
       if str_eqb key (lit "ro.product.device") then lit "jfltexx"
       else if str_eqb key (lit "ro.build.product") then lit "jflte"
       else [];
     find_by_id := fun rom_id =>
       if str_eqb rom_id (lit "dual") then Some rom_dual else None;
     sys_result := fun k => negb (k =? 1)%nat |}.

(** A small file read in two chunks. *)
Definition small_file : source_file :=
  {| fstat_mode := Some 33188%Z;
     lseek_size := 11%Z;
     reads := [(6%Z, lit "hello "); (5%Z, lit "world")] |}.

Definition env_small : Env :=
  {| MBP_VERSION := lit "8.0.0"; size_bits := 64;
     FTS_OK := 0; FTS_Fail := 1;
     installed := []; load_file := fun _ => None;
     open64 := fun _ => Some small_file; file_read_all := fun _ => None;
     zipOpen2_64 := fun _ => true; zip_result := fun _ => ZIP_OK;
     walk := fun _ => [] |}.

(** The root itself, met as a regular file. *)
Definition root_node : WalkNode :=
  {| fts_path := lit "/tmp/aroma"; fts_accpath := lit "/tmp/aroma";
     fts_kind := NodeFile |}.

(** A call that reports a failure. *)
Definition op_failed (o : op) : bool :=
  match o with
  | OpWipeDirectory _ _ r | OpDeleteRecursive _ r
  | OpChooseRom _ _ _ r | OpGenerate _ _ r => negb r
  | _ => false
  end.

Definition WIPE_ACTIONS : list str :=
  [lit "wipe-system"; lit "wipe-cache"; lit "wipe-data";
   lit "wipe-dalvik-cache"; lit "wipe-multiboot"].

(** The same system with a device list that does not hold the device. *)
Definition sys_unknown : Sys :=
  {| devices := [dev_other];
     property := property sys_sample;
     find_by_id := find_by_id sys_sample;
     sys_result := fun _ => true |}.

(** * Properties *)

Local Close Scope Z_scope.

(** ** [starts_with], [find] and [replace_all] *)

Section Replace.

Variables from to : str.

Lemma starts_with_app (p s : str) : starts_with p (p ++ s) = true.
Proof.
  induction p as [|x p IH]; simpl; [reflexivity|].
  now rewrite Ascii.eqb_refl.
Qed.

Lemma starts_with_split (p s : str) :
  starts_with p s = true -> s = p ++ skipn (length p) s.
Proof.
  revert s; induction p as [|x p IH]; intros [|y s]; simpl; try easy.
  intros H; apply andb_true_iff in H as [Hxy Hp].
  apply Ascii.eqb_eq in Hxy; subst y.
  now rewrite <- (IH s Hp).
Qed.

Lemma starts_with_length (p s : str) :
  starts_with p s = true -> length p <= length s.
Proof.
  intros H; pose proof (f_equal (@length _) (starts_with_split p s H)) as E.
  rewrite length_app in E; lia.
Qed.

Lemma find_bound (s : str) (pos : nat) :
  find from s = Some pos -> pos + length from <= length s.
Proof.
  revert pos; induction s as [|c s IH]; intros pos; simpl.
  - destruct (starts_with from []) eqn:Hs; [|discriminate].
    intros [= <-]; apply starts_with_length in Hs; simpl in *; lia.
  - destruct (starts_with from (c :: s)) eqn:Hs.
    + intros [= <-]; apply starts_with_length in Hs; simpl in *; lia.
    + destruct (find from s) as [q|]; simpl; [|discriminate].
      intros [= <-]; specialize (IH q eq_refl); lia.
Qed.

Hypothesis from_nonempty : from <> [].

Lemma from_length : 1 <= length from.
Proof. destruct from; [congruence | simpl; lia]. Qed.

(** More fuel than the length of the string is never used. *)
Lemma replace_loop_fuel (fuel fuel' : nat) (s : str) :
  length s < fuel -> length s < fuel' ->
  replace_loop fuel from to s = replace_loop fuel' from to s.
Proof.
  revert fuel' s; induction fuel as [|fuel IH]; intros [|fuel'] s H H';
    try lia.
  simpl; destruct (find from s) as [pos|] eqn:Hf; [|reflexivity].
  pose proof (find_bound s Hf) as Hb; pose proof from_length as Hl.
  do 2 f_equal; apply IH; rewrite length_skipn; lia.
Qed.

Lemma replace_all_unfold (s : str) :
  replace_all s from to = replace_loop (S (length s)) from to s.
Proof.
  unfold replace_all; destruct from; [congruence | reflexivity].
Qed.

Lemma find_nil : find from [] = None.
Proof.
  simpl; destruct (starts_with from []) eqn:H0; [|reflexivity].
  apply starts_with_length in H0; pose proof from_length; simpl in *; lia.
Qed.

Lemma replace_all_nil : replace_all [] from to = [].
Proof.
  rewrite replace_all_unfold; cbn [replace_loop length].
  now rewrite find_nil.
Qed.

Lemma replace_loop_S (fuel : nat) (s : str) :
  replace_loop (S fuel) from to s =
  match find from s with
  | None => s
  | Some pos =>
      firstn pos s ++ to
        ++ replace_loop fuel from to (skipn (pos + length from) s)
  end.
Proof. reflexivity. Qed.

Lemma find_cons (c : ascii) (s : str) :
  starts_with from (c :: s) = false ->
  find from (c :: s) = option_map S (find from s).
Proof. intros Hs; cbn [find]; now rewrite Hs. Qed.

(** Where [from] does not start, the character is kept. *)
Lemma replace_all_skip (c : ascii) (s : str) :
  starts_with from (c :: s) = false ->
  replace_all (c :: s) from to = c :: replace_all s from to.
Proof.
  intros Hs; rewrite !replace_all_unfold, !replace_loop_S, (find_cons _ _ Hs).
  destruct (find from s) as [pos|] eqn:Hf; cbn [option_map]; [|reflexivity].
  cbn [firstn skipn Nat.add app length]; do 3 f_equal.
  pose proof (find_bound _ Hf) as Hb; pose proof from_length as Hl.
  apply replace_loop_fuel; rewrite length_skipn; lia.
Qed.

Lemma find_match (s : str) : find from (from ++ s) = Some 0.
Proof.
  destruct (from ++ s) eqn:Ea; cbn [find]; rewrite <- Ea, starts_with_app;
    reflexivity.
Qed.

(** Where [from] starts, it is replaced and the search resumes after it. *)
Lemma replace_all_match (s : str) :
  replace_all (from ++ s) from to = to ++ replace_all s from to.
Proof.
  rewrite !replace_all_unfold, replace_loop_S, find_match.
  cbn [firstn Nat.add app]; f_equal.
  rewrite skipn_app, skipn_all, Nat.sub_diag; cbn [skipn app].
  pose proof from_length as Hl.
  apply replace_loop_fuel; rewrite ?length_app; lia.
Qed.

End Replace.

(** ** The generated blocks and the index bounds *)

Lemma menu_item_eq (name : str) :
  menu_item name
  = DQUOTE :: c_str name ++ c_literal "\', \'\', \'@default\',\n".
Proof. vm_compute; reflexivity. Qed.

Lemma selection_item_eq (index : N) (rom_id name : str) :
  selection_item index rom_id name
  = c_literal "if prop(\'operations.prop\', \'selected\') == \'"
      ++ format_zu index
      ++ c_literal "\' then\n    setvar(\'romid\', \'"
      ++ c_str rom_id
      ++ c_literal "\');\n    setvar(\'romname\', \'"
      ++ c_str name
      ++ c_literal "\');\nendif;\n".
Proof. vm_compute; reflexivity. Qed.

Lemma config_path_eq (rom : Rom.t) :
  config_path rom
  = lit "/data/media/0/MultiBoot/" ++ c_str (Rom.id rom) ++ lit "/config.json".
Proof. vm_compute; reflexivity. Qed.

(** The loop appends one menu item per ROM, in the order of the list. *)
Lemma rom_items_menu (E : Env) (roms : list Rom.t) (i : N) (menu sel : str) :
  fst (rom_items E i roms menu sel)
  = menu ++ concat (map (fun rom => menu_item (rom_name E rom)) roms).
Proof.
  revert i menu sel; induction roms as [|rom roms IH]; intros i menu sel.
  - simpl; now rewrite app_nil_r.
  - cbn [rom_items map concat]; rewrite IH, <- app_assoc; reflexivity.
Qed.

Lemma size_add_small (E : Env) (a b : N) :
  (a + b < 2 ^ size_bits E)%N -> size_add E a b = (a + b)%N.
Proof. intros H; unfold size_add; now apply N.mod_small. Qed.

Lemma generate_aroma_config_fold (E : Env) (data : str) :
  generate_aroma_config E data = apply_substitutions (substitutions E) data.
Proof. reflexivity. Qed.

Lemma count_occ_c_str_le (c : ascii) (s : str) :
  count_occ ascii_dec s c = 0 -> count_occ ascii_dec (c_str s) c = 0.
Proof.
  induction s as [|x s IH]; simpl; [easy|].
  destruct (ascii_dec x c) as [->|Hne]; [discriminate|]; intros H.
  destruct (Ascii.eqb x NUL); simpl; [reflexivity|].
  destruct (ascii_dec x c); [congruence | auto].
Qed.

(** C1, as amended.  The value substituted for the first-index token is 3
    (2 + 1), and the value substituted for the last-index token is 2 + N
    for N installed ROMs, [size_t] being wide enough for it: the bounds are
    those of the inclusive range of the positions 3 .. N + 2.  With no ROM
    installed the two generated blocks are empty and the last index is 2. *)
Theorem index_bounds (E : Env) :
  (N.of_nat (length (installed E)) + 2 < 2 ^ size_bits E)%N ->
  first_index E = lit "3"
  /\ last_index E = format_zu (2 + N.of_nat (length (installed E)))
  /\ generate_aroma_config E TOKEN_FIRST_INDEX = lit "3"
  /\ generate_aroma_config E TOKEN_LAST_INDEX = last_index E
  /\ (installed E = [] ->
      rom_menu_items E = [] /\ rom_selection_items E = []
      /\ last_index E = lit "2").
Proof.
  intros Hw.
  assert (Hlast : last_index E
                  = format_zu (2 + N.of_nat (length (installed E)))).
  { unfold last_index; rewrite size_add_small by lia.
    change (format (lit "%zu") [ArgZu ?n]) with (format_zu n ++ []).
    apply app_nil_r. }
  split; [reflexivity|]. split; [exact Hlast|].
  split; [reflexivity|]. split.
  { change (generate_aroma_config E TOKEN_LAST_INDEX)
      with (last_index E ++ []).
    apply app_nil_r. }
  intros Hnil. unfold rom_menu_items, rom_selection_items.
  rewrite Hlast, Hnil. repeat split.
Qed.

Lemma index_bounds_witness :
  (N.of_nat (length (installed env_two)) + 2 < 2 ^ size_bits env_two)%N
  /\ last_index env_two = lit "4".
Proof.
  split; [vm_compute; reflexivity|].
  destruct (index_bounds env_two) as (_ & H & _); [vm_compute; reflexivity|].
  rewrite H; reflexivity.
Defined.

(** C1 as stated fails: with no ROM the last index is 2, not the offset 3,
    and with two ROMs it is 4, not 3 + 2. *)
Lemma last_index_counterexample :
  installed env_empty = []
  /\ first_index env_empty = lit "3"
  /\ last_index env_empty = lit "2"
  /\ last_index env_empty <> first_index env_empty
  /\ length (installed env_two) = 2
  /\ last_index env_two = lit "4"
  /\ last_index env_two <> format_zu (3 + 2).
Proof. repeat split; try reflexivity; vm_compute; discriminate. Qed.

(** C8.  The menu-items replacement is the concatenation, in the order of
    the ROM list, of one line per installed ROM; the line is a quoted name
    followed by the fixed fields and a line feed, and the name is the C
    string of the [name] loaded from [/data/media/0/MultiBoot/<id>/config.json]
    when the load succeeds, of the ROM's id otherwise.  When no name holds
    a line feed, the replacement holds as many line feeds as there are
    ROMs. *)
Theorem menu_items_per_rom (E : Env) :
  let shown rom :=
    match load_file E (lit "/data/media/0/MultiBoot/" ++ c_str (Rom.id rom)
                         ++ lit "/config.json") with
    | Some name => name
    | None => Rom.id rom
    end in
  let line rom :=
    DQUOTE :: c_str (shown rom) ++ c_literal "\', \'\', \'@default\',\n" in
  rom_menu_items E = concat (map line (installed E))
  /\ length (map line (installed E)) = length (installed E)
  /\ ((forall rom, In rom (installed E) ->
         count_occ ascii_dec (shown rom) LF = 0) ->
      count_occ ascii_dec (rom_menu_items E) LF = length (installed E)).
Proof.
  intros shown line.
  assert (Hmenu : rom_menu_items E = concat (map line (installed E))).
  { unfold rom_menu_items; rewrite rom_items_menu; cbn [app].
    apply (f_equal (@concat ascii)), map_ext; intros rom.
    rewrite menu_item_eq; unfold line, shown, rom_name.
    now rewrite config_path_eq. }
  split; [exact Hmenu|]. split; [apply length_map|].
  rewrite Hmenu; clear Hmenu.
  induction (installed E) as [|rom roms IH]; intros Hlf; [reflexivity|].
  cbn [map concat length]; rewrite count_occ_app, IH.
  - unfold line at 1; rewrite count_occ_cons_neq by discriminate.
    rewrite count_occ_app, count_occ_c_str_le.
    + reflexivity.
    + apply Hlf; now left.
  - intros r Hr; apply Hlf; now right.
Qed.

Lemma menu_items_per_rom_witness :
  (forall rom, In rom (installed env_two) ->
     count_occ ascii_dec (rom_name env_two rom) LF = 0)
  /\ count_occ ascii_dec (rom_menu_items env_two) LF = 2.
Proof.
  assert (H : forall rom, In rom (installed env_two) ->
                count_occ ascii_dec (rom_name env_two rom) LF = 0).
  { intros rom [<-|[<-|[]]]; reflexivity. }
  split; [exact H|].
  destruct (menu_items_per_rom env_two) as (_ & _ & Hc).
  exact (Hc H).
Defined.

(** ** The archive builder *)

Local Open Scope Z_scope.

Lemma bind_run {A B} (m : M A) (f : A -> M B) (k : nat) :
  bind m f k = (fst (f (fst (m k)) (k + length (snd (m k)))%nat),
                snd (m k) ++ snd (f (fst (m k)) (k + length (snd (m k)))%nat)).
Proof.
  unfold bind; destruct (m k) as [a l1]; cbn [fst snd].
  now destruct (f a (k + length l1)%nat).
Qed.

Lemma to_uint64_small (z : Z) : 0 <= z < 2 ^ 64 -> to_uint64 z = z.
Proof. intros H; now apply Z.mod_small. Qed.

Lemma zip64_needed_spec (size : Z) :
  0 <= size < 2 ^ 64 -> (zip64_needed size = true <-> 2 ^ 32 - 1 <= size).
Proof.
  intros H; unfold zip64_needed; rewrite to_uint64_small by exact H.
  change (Z.shiftl 1 32 - 1) with (2 ^ 32 - 1). apply Z.leb_le.
Qed.

(** The calls of [add_file(name, contents)], case by case. *)
Lemma add_file_contents_run (E : Env) (name contents : str) (k : nat) :
  let opened := CallZipOpenNewFileInZip2_64 name zi_zero Z_DEFLATED
                  Z_DEFAULT_COMPRESSION 0
                  (zip64_needed (Z.of_nat (length contents)))
                  (zip_result E k) in
  let written := CallZipWriteInFileInZip
                   (firstn (Z.to_nat (to_unsigned (Z.of_nat (length contents))))
                           contents)
                   (to_unsigned (Z.of_nat (length contents)))
                   (zip_result E (k + 1)) in
  add_file_contents E name contents k
  = if negb (zip_result E k =? ZIP_OK) then (false, [opened; Log LogW])
    else if negb (zip_result E (k + 1) =? ZIP_OK)
         then (false, [opened; written; Log LogW; CallZipCloseFileInZip])
         else (true, [opened; written; CallZipCloseFileInZip]).
Proof.
  intros opened written; unfold add_file_contents.
  rewrite bind_run; cbn [zipOpenNewFileInZip2_64 zip_call fst snd length].
  destruct (negb (zip_result E k =? ZIP_OK)); [reflexivity|].
  rewrite bind_run; cbn [zipWriteInFileInZip zip_call fst snd length].
  destruct (negb (zip_result E (k + 1) =? ZIP_OK)); reflexivity.
Qed.

Lemma copy_loop_streamed (E : Env) (rs : list (Z * str)) (k : nat) :
  match copy_loop E rs k with
  | ((Some b, _), calls) => streamed b calls
  | ((None, n), calls) =>
      if n <? 0 then streamed false (calls ++ [CallZipCloseFileInZip; Log LogE])
      else streamed true (calls ++ [CallZipCloseFileInZip])
  end.
Proof.
  revert k; induction rs as [|[n buf] rest IH]; intros k.
  - cbn. constructor.
  - cbn [copy_loop]; rewrite bind_run; cbn [emit fst snd length app].
    destruct (0 <? n) eqn:Hn.
    + apply Z.ltb_lt in Hn.
      rewrite bind_run; cbn [zipWriteInFileInZip zip_call fst snd length app].
      destruct (zip_result E (k + 1)%nat =? ZIP_OK) eqn:Hr; cbn [negb].
      * apply Z.eqb_eq in Hr; rewrite Hr.
        specialize (IH (k + 1 + 1)%nat).
        destruct (copy_loop E rest (k + 1 + 1)%nat) as [[[b|] m] calls];
          cbn [fst snd app].
        -- now constructor.
        -- destruct (m <? 0); cbn [app]; now constructor.
      * apply Z.eqb_neq in Hr; cbn; now constructor.
    + apply Z.ltb_ge in Hn; cbn [ret fst snd app].
      destruct (n <? 0) eqn:Hneg.
      * apply Z.ltb_lt in Hneg; cbn; now constructor.
      * apply Z.ltb_ge in Hneg; assert (n = 0) as -> by lia.
        cbn; constructor.
Qed.

(** The calls of [add_file(name, path)], case by case. *)
Lemma add_file_path_run (E : Env) (name path : str) (k : nat) :
  match open64 E path with
  | None =>
      add_file_path E name path k = (false, [CallOpen64 path false; Log LogE])
  | Some f =>
      match fstat_mode f with
      | None =>
          add_file_path E name path k
          = (false, [CallOpen64 path true; CallFstat false; Log LogE])
      | Some st_mode =>
          exists rc b tail,
            add_file_path E name path k
            = (b, [CallOpen64 path true; CallFstat true;
                   CallLseek64; CallLseek64; CallLseek64;
                   CallZipOpenNewFileInZip2_64 name
                     (set_external_fa zi_zero (Z.shiftl (Z.land st_mode 511) 16))
                     Z_DEFLATED Z_DEFAULT_COMPRESSION 0
                     (zip64_needed (to_uint64 (lseek_size f))) rc] ++ tail)
            /\ ((rc <> ZIP_OK /\ b = false /\ tail = [Log LogW])
                \/ (rc = ZIP_OK /\ streamed b tail))
      end
  end.
Proof.
  unfold add_file_path.
  destruct (open64 E path) as [f|]; [|reflexivity].
  destruct (fstat_mode f) as [st_mode|]; [|reflexivity].
  repeat (rewrite bind_run; cbn [emit fst snd length app]).
  cbn [zipOpenNewFileInZip2_64 zip_call fst snd length app].
  set (k' := (k + 1 + 1 + 1 + 1 + 1)%nat).
  exists (zip_result E k').
  destruct (zip_result E k' =? ZIP_OK) eqn:Hr; cbn [negb].
  - apply Z.eqb_eq in Hr.
    rewrite bind_run.
    pose proof (copy_loop_streamed E (reads f) (k' + 1)%nat) as Hs.
    destruct (copy_loop E (reads f) (k' + 1)%nat) as [[[b|] m] calls];
      cbn [fst snd].
    + exists b, calls; split; [cbn; now rewrite app_nil_r | now right].
    + destruct (m <? 0).
      * eexists false, _; split; [reflexivity | now right].
      * eexists true, _; split; [reflexivity | now right].
  - apply Z.eqb_neq in Hr.
    exists false, [Log LogW]; split; [reflexivity | now left].
Qed.

Lemma streamed_no_open (b : bool) (calls : list call) :
  streamed b calls -> opened_entries calls = [].
Proof. induction 1; cbn; auto. Qed.

Lemma streamed_errors_closed (b : bool) (calls : list call) :
  streamed b calls -> errors_closed calls = true.
Proof.
  induction 1 as [| | |n buf len b rest Hn Hs IH]; cbn.
  - reflexivity.
  - destruct (n <? 0); reflexivity.
  - destruct (n <? 0), (negb (r =? ZIP_OK)); reflexivity.
  - rewrite IH; assert ((n <? 0) = false) as -> by (apply Z.ltb_ge; lia).
    reflexivity.
Qed.

Lemma streamed_entry_closed (b : bool) (calls : list call) :
  streamed b calls -> forall o, fold_left entry_step calls o = false.
Proof. induction 1; intros o; cbn; auto. Qed.

Lemma streamed_error_false (b : bool) (calls : list call) :
  streamed b calls -> existsb stream_error calls = true -> b = false.
Proof.
  induction 1 as [| | |n buf len b rest Hn Hs IH]; cbn; try easy.
  assert ((n <? 0) = false) as -> by (apply Z.ltb_ge; lia).
  exact IH.
Qed.

Lemma errors_closed_split (calls pre post : list call) (c : call) :
  errors_closed calls = true -> calls = pre ++ c :: post ->
  stream_error c = true -> In CallZipCloseFileInZip post.
Proof.
  revert calls; induction pre as [|x pre IH]; intros calls Hc -> He.
  - cbn in Hc; rewrite He in Hc; apply andb_true_iff in Hc as [Hc _].
    apply existsb_exists in Hc as (y & Hy & Hclose).
    destruct y; try discriminate; exact Hy.
  - cbn in Hc; apply andb_true_iff in Hc as [_ Hc].
    exact (IH _ Hc eq_refl He).
Qed.

Lemma prefix_before_error (l1 l2 pre post : list call) (c : call) :
  existsb stream_error l1 = false ->
  l1 ++ l2 = pre ++ c :: post -> stream_error c = true ->
  exists pre', pre = l1 ++ pre'.
Proof.
  revert pre; induction l1 as [|x l1 IH]; intros pre Hq Heq He.
  - now exists pre.
  - cbn in Hq; apply orb_false_iff in Hq as [Hx Hq].
    destruct pre as [|y pre]; cbn in Heq; injection Heq as -> Heq.
    + congruence.
    + destruct (IH pre Hq Heq He) as [pre' ->]; now exists pre'.
Qed.

Lemma errors_closed_app (l1 l2 : list call) :
  existsb stream_error l1 = false ->
  errors_closed (l1 ++ l2) = errors_closed l2.
Proof.
  induction l1 as [|x l1 IH]; intros Hq; [reflexivity|].
  cbn in Hq; apply orb_false_iff in Hq as [Hx Hq].
  cbn; now rewrite Hx, IH.
Qed.

Lemma split_has_error (calls pre post : list call) (c : call) :
  calls = pre ++ c :: post -> stream_error c = true ->
  existsb stream_error calls = true.
Proof.
  intros -> He; apply existsb_exists; exists c; split; [|exact He].
  apply in_or_app; right; now left.
Qed.

(** C4.  Whenever [add_file(name, path)] meets a read error or a write
    error, the entry record had been opened before, the function returns
    [false], [zipCloseFileInZip] is called after the error, and no entry
    record is left open. *)
Theorem stream_error_closes_entry
    (E : Env) (name path : str) (k : nat) (pre post : list call) (c : call) :
  snd (add_file_path E name path k) = pre ++ c :: post ->
  stream_error c = true ->
  fst (add_file_path E name path k) = false
  /\ In CallZipCloseFileInZip post
  /\ entry_open (snd (add_file_path E name path k)) = false
  /\ exists zi method level raw zip64,
       In (CallZipOpenNewFileInZip2_64 name zi method level raw zip64 ZIP_OK)
          pre.
Proof.
  intros Hsplit He.
  pose proof (split_has_error _ _ _ Hsplit He) as Hex.
  pose proof (add_file_path_run E name path k) as Hrun.
  destruct (open64 E path) as [f|];
    [|rewrite Hrun in Hex; discriminate].
  destruct (fstat_mode f) as [st_mode|];
    [|rewrite Hrun in Hex; discriminate].
  destruct Hrun as (rc & b & tail & Hrun & Htail).
  rewrite Hrun in *; cbn [fst snd] in *.
  destruct Htail as [(Hrc & -> & ->)|(-> & Hs)]; [discriminate|].
  match type of Hsplit with ?h ++ tail = _ => set (head := h) in * end.
  assert (Hq : existsb stream_error head = false) by reflexivity.
  rewrite existsb_app, Hq in Hex; cbn [orb] in Hex.
  split; [exact (streamed_error_false Hs Hex)|].
  split.
  { apply (errors_closed_split (calls := head ++ tail) pre post c);
      [|exact Hsplit|exact He].
    rewrite errors_closed_app by exact Hq.
    exact (streamed_errors_closed Hs). }
  split.
  { unfold entry_open; rewrite fold_left_app.
    exact (streamed_entry_closed Hs _). }
  destruct (prefix_before_error head tail pre post c Hq Hsplit He)
    as [pre' ->].
  do 5 eexists; apply in_or_app; left.
  unfold head; cbn; do 5 right; left; reflexivity.
Qed.

Lemma stream_error_closes_entry_witness :
  fst (add_file_path env_tree (lit "big.img") (lit "big.img") 6%nat) = false
  /\ In CallZipCloseFileInZip [CallZipCloseFileInZip; Log LogE].
Proof.
  destruct (@stream_error_closes_entry env_tree (lit "big.img") (lit "big.img")
              6%nat
              (firstn 8 (snd (add_file_path env_tree (lit "big.img")
                                (lit "big.img") 6%nat)))
              [CallZipCloseFileInZip; Log LogE] (CallRead (-1)))
    as (H1 & H2 & _); [reflexivity | reflexivity |].
  split; assumption.
Defined.

Lemma opened_entries_app (l1 l2 : list call) :
  opened_entries (l1 ++ l2) = opened_entries l1 ++ opened_entries l2.
Proof. apply flat_map_app. Qed.

(** [add_file(name, path)] opens exactly one entry once the source file is
    open and its status is read. *)
Lemma add_file_path_opened
    (E : Env) (name path : str) (k : nat) (f : source_file) (st_mode : Z) :
  open64 E path = Some f -> fstat_mode f = Some st_mode ->
  opened_entries (snd (add_file_path E name path k))
  = [(name, set_external_fa zi_zero (Z.shiftl (Z.land st_mode 511) 16),
      zip64_needed (to_uint64 (lseek_size f)))].
Proof.
  intros Ho Hf; pose proof (add_file_path_run E name path k) as Hrun.
  rewrite Ho, Hf in Hrun; destruct Hrun as (rc & b & tail & -> & Htail).
  cbn [snd]; rewrite opened_entries_app.
  assert (Ht : opened_entries tail = []).
  { destruct Htail as [(_ & _ & ->)|(_ & Hs)];
      [reflexivity | exact (streamed_no_open Hs)]. }
  rewrite Ht; reflexivity.
Qed.

(** [add_file(name, contents)] opens exactly one entry. *)
Lemma add_file_contents_opened (E : Env) (name contents : str) (k : nat) :
  opened_entries (snd (add_file_contents E name contents k))
  = [(name, zi_zero, zip64_needed (Z.of_nat (length contents)))].
Proof.
  rewrite add_file_contents_run.
  destruct (negb (zip_result E k =? ZIP_OK)); [reflexivity|].
  destruct (negb (zip_result E (k + 1) =? ZIP_OK)); reflexivity.
Qed.

(** C2.  Each call of [add_file] opens one entry, and the entry is opened
    with the zip64 flag exactly when the content length, the size found by
    [lseek64] for a file and the size of the buffer otherwise, is at least
    2^32 - 1: a length of 2^32 - 1 selects zip64, a length of 2^32 - 2
    does not. *)
Theorem zip64_selection
    (E : Env) (name path contents : str) (k : nat)
    (f : source_file) (st_mode : Z) :
  open64 E path = Some f -> fstat_mode f = Some st_mode ->
  0 <= lseek_size f < 2 ^ 64 ->
  Z.of_nat (length contents) < 2 ^ 64 ->
  (exists zi zip64,
      opened_entries (snd (add_file_path E name path k)) = [(name, zi, zip64)]
      /\ (zip64 = true <-> 2 ^ 32 - 1 <= lseek_size f))
  /\ (exists zi zip64,
         opened_entries (snd (add_file_contents E name contents k))
         = [(name, zi, zip64)]
         /\ (zip64 = true <-> 2 ^ 32 - 1 <= Z.of_nat (length contents)))
  /\ zip64_needed (2 ^ 32 - 1) = true
  /\ zip64_needed (2 ^ 32 - 2) = false.
Proof.
  intros Ho Hf Hsize Hlen. split; [|split; [|split; reflexivity]].
  - do 2 eexists; split; [exact (@add_file_path_opened E name path k f st_mode Ho Hf)|].
    rewrite (to_uint64_small Hsize). now apply zip64_needed_spec.
  - do 2 eexists; split; [apply add_file_contents_opened|].
    apply zip64_needed_spec; lia.
Qed.

Lemma zip64_selection_witness :
  lseek_size big_file = 2 ^ 32 - 1
  /\ exists zi,
       opened_entries
         (snd (add_file_path env_tree (lit "big.img") (lit "big.img") 0%nat))
       = [(lit "big.img", zi, true)].
Proof.
  split; [reflexivity|].
  destruct (@zip64_selection env_tree (lit "big.img") (lit "big.img")
              (lit "abc") 0%nat big_file 33188)
    as ((zi & zip64 & Hopened & Hiff) & _);
    [reflexivity | reflexivity | cbn; lia | reflexivity |].
  exists zi; rewrite Hopened.
  assert (zip64 = true) as -> by (apply Hiff; cbn; lia).
  reflexivity.
Defined.

(** C7.  The entry that [add_file(name, path)] opens has, as external file
    attributes, the mode of the source file masked with 0777 (511) and
    shifted left by 16, that is its low 9 bits times 2^16; the entry that
    [add_file(name, contents)] opens has them zero. *)
Theorem external_attributes
    (E : Env) (name path contents : str) (k : nat)
    (f : source_file) (st_mode : Z) :
  open64 E path = Some f -> fstat_mode f = Some st_mode ->
  map (fun e => external_fa (snd (fst e)))
      (opened_entries (snd (add_file_path E name path k)))
  = [Z.shiftl (Z.land st_mode 511) 16]
  /\ Z.shiftl (Z.land st_mode 511) 16 = (st_mode mod 2 ^ 9) * 2 ^ 16
  /\ map (fun e => external_fa (snd (fst e)))
         (opened_entries (snd (add_file_contents E name contents k)))
     = [0].
Proof.
  intros Ho Hf. split; [|split].
  - rewrite (@add_file_path_opened E name path k f st_mode Ho Hf); reflexivity.
  - change 511 with (Z.ones 9).
    rewrite Z.land_ones, Z.shiftl_mul_pow2 by lia; reflexivity.
  - rewrite add_file_contents_opened; reflexivity.
Qed.

Lemma external_attributes_witness :
  map (fun e => external_fa (snd (fst e)))
      (opened_entries
         (snd (add_file_path env_tree (lit "big.img") (lit "big.img") 0%nat)))
  = [420 * 65536].
Proof.
  destruct (@external_attributes env_tree (lit "big.img") (lit "big.img")
              (lit "abc") 0%nat big_file 33188) as (H & _);
    [reflexivity | reflexivity |].
  exact H.
Defined.

(** C6.  The handlers of symlinks and of special files log a warning and
    return [FTS_OK], whatever the node: they make no call to the archive. *)
Theorem symlink_and_special_ignored (E : Env) (_curr : WalkNode) (k : nat) :
  on_reached_symlink E _curr k = (FTS_OK E, [Log LogW])
  /\ on_reached_special_file E _curr k = (FTS_OK E, [Log LogW])
  /\ opened_entries (snd (on_reached_symlink E _curr k)) = []
  /\ opened_entries (snd (on_reached_special_file E _curr k)) = [].
Proof. repeat split. Qed.

(** ** The handler of regular files *)

Lemma substr_app (root rel : str) (c : ascii) :
  substr (root ++ c :: rel) (length root + 1) = Some rel.
Proof.
  unfold substr. rewrite length_app; cbn [length].
  assert ((length root + 1 <=? length root + S (length rel))%nat = true) as ->
    by (apply Nat.leb_le; lia).
  f_equal. rewrite skipn_app, skipn_all2 by lia.
  replace (length root + 1 - length root)%nat with 1%nat by lia.
  reflexivity.
Qed.

(** The calls of [on_reached_file], case by case. *)
Lemma on_reached_file_run (E : Env) (_path : str) (_curr : WalkNode) (k : nat) :
  on_reached_file E _path _curr k
  = match substr (fts_path _curr) (length _path + 1) with
    | None => (None, [])
    | Some name =>
        if str_eqb name TEMPLATE_NAME then
          match file_read_all E (fts_accpath _curr) with
          | None =>
              (Some 0, [Log LogD; CallFileReadAll (fts_accpath _curr) false;
                        Log LogE])
          | Some data =>
              let r := add_file_contents E CONFIG_NAME
                         (generate_aroma_config E data) (k + 1 + 1)%nat in
              (Some (if fst r then FTS_OK E else FTS_Fail E),
               Log LogD :: CallFileReadAll (fts_accpath _curr) true :: snd r)
          end
        else
          let r := add_file_path E name (fts_accpath _curr) (k + 1)%nat in
          (Some (if fst r then FTS_OK E else FTS_Fail E), Log LogD :: snd r)
    end.
Proof.
  unfold on_reached_file.
  destruct (substr (fts_path _curr) (length _path + 1)) as [name|];
    [|reflexivity].
  rewrite bind_run; cbn [LOGD emit fst snd length app].
  destruct (str_eqb name TEMPLATE_NAME).
  - destruct (file_read_all E (fts_accpath _curr)) as [data|];
      [|reflexivity].
    rewrite bind_run; cbn [emit fst snd length app].
    rewrite bind_run; cbn [ret fst snd]; now rewrite app_nil_r.
  - rewrite bind_run; cbn [ret fst snd]; now rewrite app_nil_r.
Qed.

Lemma str_eqb_eq (a b : str) : str_eqb a b = true <-> a = b.
Proof.
  revert b; induction a as [|x a IH]; intros [|y b]; cbn; try easy.
  rewrite andb_true_iff, Ascii.eqb_eq, IH.
  split; [intros [-> ->]; reflexivity | intros [= -> ->]; now split].
Qed.

(** The names under which [on_reached_file] opens entries. *)
Lemma on_reached_file_opened (E : Env) (_path : str) (_curr : WalkNode) (k : nat) :
  forall e, In e (opened_entries (snd (on_reached_file E _path _curr k))) ->
  exists name, substr (fts_path _curr) (length _path + 1) = Some name
    /\ fst (fst e) = if str_eqb name TEMPLATE_NAME then CONFIG_NAME else name.
Proof.
  intros e; rewrite on_reached_file_run.
  destruct (substr (fts_path _curr) (length _path + 1)) as [name|];
    [|intros []].
  intros He; exists name; split; [reflexivity|].
  destruct (str_eqb name TEMPLATE_NAME).
  - destruct (file_read_all E (fts_accpath _curr)) as [data|];
      [|destruct He].
    cbn [snd] in He.
    change (opened_entries (?a :: ?b :: ?l)) with (opened_entries l) in He.
    rewrite add_file_contents_opened in He.
    destruct He as [<-|[]]; reflexivity.
  - cbn [snd] in He.
    change (opened_entries (?a :: ?l)) with (opened_entries l) in He.
    pose proof (add_file_path_run E name (fts_accpath _curr) (k + 1)%nat) as Hrun.
    destruct (open64 E (fts_accpath _curr)) as [f|] eqn:Ho;
      [|rewrite Hrun in He; destruct He].
    destruct (fstat_mode f) as [st_mode|] eqn:Hf;
      [|rewrite Hrun in He; destruct He].
    rewrite (@add_file_path_opened E name _ (k + 1)%nat f st_mode Ho Hf) in He.
    destruct He as [<-|[]]; reflexivity.
Qed.

(** C10.  For a node whose path is the root, one more character and a
    rest, [on_reached_file] strips the root and that character: the rest is
    the name under which the file is added (the template apart, which is
    renamed).  So the name is the relative path when the one character is
    the separator after a root given without a trailing slash; when the
    root ends with the separator and the relative path follows it
    directly, the name lacks the first character of the relative path. *)
Theorem entry_name_strips_root
    (E : Env) (root rel acc : str) (c : ascii) (kind : node_kind) (k : nat) :
  let _curr :=
    {| fts_path := root ++ c :: rel; fts_accpath := acc; fts_kind := kind |} in
  substr (fts_path _curr) (length root + 1) = Some rel
  /\ (str_eqb rel TEMPLATE_NAME = false ->
      on_reached_file E root _curr k
      = let r := add_file_path E rel acc (k + 1)%nat in
        (Some (if fst r then FTS_OK E else FTS_Fail E), Log LogD :: snd r))
  /\ (forall e,
         In e (opened_entries (snd (on_reached_file E root _curr k))) ->
         fst (fst e) = if str_eqb rel TEMPLATE_NAME then CONFIG_NAME else rel)
  /\ rel <> c :: rel.
Proof.
  intros _curr.
  assert (Hsub : substr (fts_path _curr) (length root + 1) = Some rel)
    by apply substr_app.
  split; [exact Hsub|]. split; [|split].
  - intros Hne; rewrite on_reached_file_run, Hsub, Hne; reflexivity.
  - intros e He.
    destruct (on_reached_file_opened E root _curr k e He) as (name & Hn & ->).
    rewrite Hsub in Hn; now injection Hn as <-.
  - intros H; apply (f_equal (@length _)) in H; cbn in H; lia.
Qed.

Lemma entry_name_strips_root_witness :
  map (fun e => fst (fst e))
      (opened_entries (snd (on_reached_file env_tree (lit "/tmp/aroma")
                              big_node 0%nat)))
  = [lit "big.img"].
Proof.
  destruct (@entry_name_strips_root env_tree (lit "/tmp/aroma") (lit "big.img")
              (lit "big.img") "/" NodeFile 0%nat) as (_ & Hrun & _).
  change (on_reached_file env_tree (lit "/tmp/aroma") big_node 0%nat)
    with (on_reached_file env_tree (lit "/tmp/aroma")
            {| fts_path := lit "/tmp/aroma" ++ "/"%char :: lit "big.img";
               fts_accpath := lit "big.img"; fts_kind := NodeFile |} 0%nat).
  rewrite Hrun by reflexivity.
  reflexivity.
Defined.

(** ** The walk *)

Lemma streamed_inner (b : bool) (calls : list call) :
  streamed b calls -> forallb inner_call calls = true.
Proof. induction 1; cbn; auto. Qed.

Lemma add_file_contents_inner (E : Env) (name contents : str) (k : nat) :
  forallb inner_call (snd (add_file_contents E name contents k)) = true.
Proof.
  rewrite add_file_contents_run.
  destruct (negb (zip_result E k =? ZIP_OK)); [reflexivity|].
  destruct (negb (zip_result E (k + 1) =? ZIP_OK)); reflexivity.
Qed.

Lemma add_file_path_inner (E : Env) (name path : str) (k : nat) :
  forallb inner_call (snd (add_file_path E name path k)) = true.
Proof.
  pose proof (add_file_path_run E name path k) as Hrun.
  destruct (open64 E path) as [f|]; [|now rewrite Hrun].
  destruct (fstat_mode f) as [st_mode|]; [|now rewrite Hrun].
  destruct Hrun as (rc & b & tail & -> & Htail).
  cbn [snd]; rewrite forallb_app; apply andb_true_iff; split; [reflexivity|].
  destruct Htail as [(_ & _ & ->)|(_ & Hs)];
    [reflexivity | exact (streamed_inner Hs)].
Qed.

Lemma on_reached_file_inner (E : Env) (_path : str) (_curr : WalkNode) (k : nat) :
  forallb inner_call (snd (on_reached_file E _path _curr k)) = true.
Proof.
  rewrite on_reached_file_run.
  destruct (substr (fts_path _curr) (length _path + 1)) as [name|];
    [|reflexivity].
  destruct (str_eqb name TEMPLATE_NAME).
  - destruct (file_read_all E (fts_accpath _curr)) as [data|];
      [|reflexivity].
    cbn [snd forallb inner_call andb]; apply add_file_contents_inner.
  - cbn [snd forallb inner_call andb]; apply add_file_path_inner.
Qed.

Lemma on_reached_file_returns (E : Env) (_path : str) (_curr : WalkNode) (k : nat) :
  (length _path < length (fts_path _curr))%nat ->
  exists a, fst (on_reached_file E _path _curr k) = Some a.
Proof.
  intros Hlen; rewrite on_reached_file_run; unfold substr.
  assert ((length _path + 1 <=? length (fts_path _curr))%nat = true) as ->
    by (apply Nat.leb_le; lia).
  destruct (str_eqb _ TEMPLATE_NAME).
  - destruct (file_read_all E (fts_accpath _curr)); eexists; reflexivity.
  - eexists; reflexivity.
Qed.

Lemma dispatch_result (E : Env) (_path : str) (_curr : WalkNode) (k : nat) :
  (fts_kind _curr = NodeFile ->
   (length _path < length (fts_path _curr))%nat) ->
  exists a, fst (dispatch E _path _curr k) = Some a
    /\ forallb inner_call (snd (dispatch E _path _curr k)) = true
    /\ (fts_kind _curr <> NodeFile -> a = FTS_OK E).
Proof.
  intros Hlen; unfold dispatch.
  destruct (fts_kind _curr).
  - destruct (on_reached_file_returns E _path _curr k (Hlen eq_refl))
      as [a Ha].
    exists a; split; [exact Ha|]; split; [|congruence].
    apply on_reached_file_inner.
  - exists (FTS_OK E); repeat split.
  - exists (FTS_OK E); repeat split.
  - exists (FTS_OK E); repeat split.
Qed.

Lemma not_inner_returned (calls : list call) (kind : node_kind) (r : Z) :
  forallb inner_call calls = true -> ~ In (Returned kind r) calls.
Proof.
  intros Hall Hin.
  rewrite forallb_forall in Hall; specialize (Hall _ Hin); discriminate.
Qed.

Lemma not_inner_zip_close (calls : list call) (r : Z) :
  forallb inner_call calls = true -> ~ In (CallZipClose r) calls.
Proof.
  intros Hall Hin.
  rewrite forallb_forall in Hall; specialize (Hall _ Hin); discriminate.
Qed.

(** The walk returns a result when no path is shorter than the root; it
    succeeds exactly when no file handler returned [FTS_Fail], and it does
    not close the archive. *)
Lemma traverse_result (E : Env) (_path : str) (nodes : list WalkNode) :
  FTS_OK E <> FTS_Fail E ->
  (forall node, In node nodes -> fts_kind node = NodeFile ->
                (length _path < length (fts_path node))%nat) ->
  forall k, exists b,
    fst (traverse E _path nodes k) = Some b
    /\ (b = true <->
        forall r, In (Returned NodeFile r) (snd (traverse E _path nodes k)) ->
                  r <> FTS_Fail E)
    /\ (forall r, ~ In (CallZipClose r) (snd (traverse E _path nodes k))).
Proof.
  intros Hdistinct; induction nodes as [|_curr rest IH]; intros Hlen k.
  - exists true; cbn; repeat split; auto.
  - cbn [traverse]; rewrite bind_run.
    destruct (dispatch_result E _path _curr k) as (a & Ha & Hinner & Hkind).
    { apply Hlen; now left. }
    rewrite Ha; set (calls := snd (dispatch E _path _curr k)) in *.
    rewrite bind_run; cbn [emit fst snd length].
    destruct (a =? FTS_Fail E) eqn:Hfail.
    + apply Z.eqb_eq in Hfail; exists false; cbn [ret fst snd].
      assert (Hfile : fts_kind _curr = NodeFile).
      { destruct (fts_kind _curr) eqn:Hk; try reflexivity;
          exfalso; apply Hdistinct; rewrite <- Hfail; symmetry; apply Hkind;
          discriminate. }
      split; [reflexivity|]; split.
      * split; [discriminate|]; intros Hall; exfalso.
        apply (Hall a); [|exact Hfail].
        apply in_or_app; right; rewrite Hfile; now left.
      * intros r Hin; apply in_app_or in Hin as [Hin|[Hin|[]]];
          [exact (not_inner_zip_close _ _ Hinner Hin) | discriminate].
    + apply Z.eqb_neq in Hfail.
      destruct (IH (fun n Hn => Hlen n (or_intror Hn))
                   (k + length calls + 1)%nat) as (b & Hb & Hiff & Hclose).
      exists b; cbn [app]; split; [exact Hb|]; split.
      * rewrite Hiff; split; intros Hall r Hin.
        -- apply in_app_or in Hin as [Hin|[Hin|Hin]].
           ++ destruct (not_inner_returned _ _ _ Hinner Hin).
           ++ congruence.
           ++ exact (Hall r Hin).
        -- apply Hall; apply in_or_app; right; now right.
      * intros r Hin; apply in_app_or in Hin as [Hin|[Hin|Hin]];
          [exact (not_inner_zip_close _ _ Hinner Hin) | discriminate
          | exact (Hclose r Hin)].
Qed.

Lemma on_pre_execute_run (E : Env) (_zippath : str) (k : nat) :
  on_pre_execute E _zippath k
  = (zipOpen2_64 E _zippath,
     CallZipOpen2_64 _zippath (zipOpen2_64 E _zippath)
       :: if zipOpen2_64 E _zippath then [] else [Log LogE]).
Proof.
  unfold on_pre_execute; rewrite bind_run; cbn [emit fst snd length].
  destruct (zipOpen2_64 E _zippath); reflexivity.
Qed.

(** C3.  When no file path is shorter than the root, so that no handler
    throws, the packaging operation returns a result: it is [true] exactly
    when no call of the file handler returned [FTS_Fail] and [zipClose]
    was called and returned [ZIP_OK].  So whenever the close fails the
    result is [false], whatever the handlers returned. *)
Theorem run_result (E : Env) (_path _zippath : str) (k : nat) :
  FTS_OK E <> FTS_Fail E ->
  (forall node, In node (walk E _path) -> fts_kind node = NodeFile ->
                (length _path < length (fts_path node))%nat) ->
  exists b,
    fst (run E _path _zippath k) = Some b
    /\ (b = true <->
        (forall r, In (Returned NodeFile r) (snd (run E _path _zippath k)) ->
                   r <> FTS_Fail E)
        /\ In (CallZipClose ZIP_OK) (snd (run E _path _zippath k)))
    /\ ((forall r, In (CallZipClose r) (snd (run E _path _zippath k)) ->
                   r <> ZIP_OK) -> b = false).
Proof.
  intros Hdistinct Hlen.
  assert (Hmain : exists b,
    fst (run E _path _zippath k) = Some b
    /\ (b = true <->
        (forall r, In (Returned NodeFile r) (snd (run E _path _zippath k)) ->
                   r <> FTS_Fail E)
        /\ In (CallZipClose ZIP_OK) (snd (run E _path _zippath k)))).
  { unfold run; rewrite bind_run, on_pre_execute_run; cbn [fst snd].
    destruct (zipOpen2_64 E _zippath); cbn [negb length].
    - rewrite bind_run; set (k' := (k + 1)%nat).
      destruct (@traverse_result E _path (walk E _path) Hdistinct Hlen k')
        as (b & Hb & Hiff & Hclose).
      rewrite Hb; set (calls := snd (traverse E _path (walk E _path) k')) in *.
      unfold on_post_execute; rewrite !bind_run.
      cbn [zip_call ret fst snd length app].
      set (rc := zip_result E (k' + length calls)%nat).
      exists (b && (rc =? ZIP_OK)); split; [reflexivity|].
      rewrite andb_true_iff, Hiff, Z.eqb_eq.
      split.
      + intros [Hall Hrc]; split.
        * intros r [Hin|Hin]; [discriminate|].
          apply in_app_or in Hin as [Hin|[Hin|[]]];
            [exact (Hall r Hin) | discriminate].
        * right; apply in_or_app; right; left; now rewrite Hrc.
      + intros [Hall [Hin|Hin]]; [discriminate|]; split.
        * intros r Hr; apply Hall; right; apply in_or_app; now left.
        * apply in_app_or in Hin as [Hin|[Hin|[]]];
            [destruct (Hclose _ Hin) | congruence].
    - exists false; cbn; split; [reflexivity|].
      split; [discriminate|].
      intros [_ [Hin|[Hin|[]]]]; discriminate. }
  destruct Hmain as (b & Hb & Hiff); exists b; split; [exact Hb|].
  split; [exact Hiff|].
  intros Hfail; destruct b; [|reflexivity].
  destruct Hiff as [Hiff _]; destruct (Hiff eq_refl) as [_ Hin].
  destruct (Hfail _ Hin eq_refl).
Qed.

Lemma run_result_witness :
  FTS_OK env_tree <> FTS_Fail env_tree
  /\ exists b,
       fst (run env_tree (lit "/tmp/aroma") (lit "out.zip") 0%nat) = Some b
       /\ (b = true <->
           (forall r,
               In (Returned NodeFile r)
                  (snd (run env_tree (lit "/tmp/aroma") (lit "out.zip") 0%nat)) ->
               r <> FTS_Fail env_tree)
           /\ In (CallZipClose ZIP_OK)
                 (snd (run env_tree (lit "/tmp/aroma") (lit "out.zip") 0%nat))).
Proof.
  split; [discriminate|].
  destruct (@run_result env_tree (lit "/tmp/aroma") (lit "out.zip") 0%nat)
    as (b & Hb & Hiff & _).
  - discriminate.
  - intros node [<-|[<-|[<-|[]]]] _; cbn; lia.
  - exists b; split; assumption.
Defined.

(** ** Templates whose tokens stand apart *)

Local Close Scope Z_scope.

Lemma token_text_body (t : token) :
  token_text t = "@"%char :: token_body t ++ ["@"%char].
Proof. destruct t; reflexivity. Qed.

Lemma token_body_chars (t : token) :
  forallb is_body_char (token_body t) = true.
Proof. destruct t; reflexivity. Qed.

Lemma token_body_first (t : token) :
  exists b body, token_body t = b :: body /\ is_body_char b = true.
Proof. destruct t; eexists _, _; split; reflexivity. Qed.

Lemma token_text_nonempty (t : token) : token_text t <> [].
Proof. destruct t; discriminate. Qed.

Lemma is_at_eq (c : ascii) : is_at c = true -> c = "@"%char.
Proof. apply Ascii.eqb_eq. Qed.

Lemma body_char_not_at (c : ascii) : is_body_char c = true -> is_at c = false.
Proof.
  intros Hb; destruct (is_at c) eqn:Ha; [|reflexivity].
  apply is_at_eq in Ha; subst c; discriminate.
Qed.

Lemma sep_not_body (c : ascii) : is_sep c = true -> is_body_char c = false.
Proof.
  unfold is_sep; intros H; apply andb_true_iff in H as [_ H].
  now apply negb_true_iff in H.
Qed.

Lemma eqb_body_sep (b d : ascii) :
  is_body_char b = true -> is_sep d = true -> Ascii.eqb b d = false.
Proof.
  intros Hb Hd; apply Ascii.eqb_neq; intros ->.
  apply sep_not_body in Hd; congruence.
Qed.

Lemma guarded_mono (s : str) : guarded false s = true -> guarded true s = true.
Proof.
  destruct s as [|c s]; [reflexivity|]; cbn.
  destruct (is_at c); [discriminate | auto].
Qed.

Lemma guarded_any (prev : bool) (s : str) :
  guarded false s = true -> guarded prev s = true.
Proof. destruct prev; [apply guarded_mono | auto]. Qed.

Lemma guarded_app (prev : bool) (a b : str) :
  guarded prev a = true -> guarded false b = true ->
  guarded prev (a ++ b) = true.
Proof.
  revert prev; induction a as [|c a IH]; intros prev Ha Hb.
  - now apply guarded_any.
  - cbn in *; destruct (is_at c).
    + apply andb_true_iff in Ha as [Ha Hg].
      apply andb_true_iff in Ha as [Hp Hd].
      destruct a as [|d a]; [discriminate|].
      rewrite Hp, (IH false Hg Hb); cbn [app]; now rewrite Hd.
    + now apply IH.
Qed.

Lemma inert_app (a b : str) :
  inert a = true -> inert b = true -> inert (a ++ b) = true.
Proof. apply guarded_app. Qed.

Lemma no_at_guarded (prev : bool) (s : str) :
  no_at s = true -> guarded prev s = true.
Proof.
  revert prev; induction s as [|c s IH]; intros prev H; [reflexivity|].
  cbn in *; apply andb_true_iff in H as [Hc Hs].
  apply negb_true_iff in Hc; rewrite Hc; now apply IH.
Qed.

Lemma no_at_inert (s : str) : no_at s = true -> inert s = true.
Proof. apply no_at_guarded. Qed.

Section Token.

Variable t : token.
Variable R : str.

(** In an inert text the token starts nowhere. *)
Lemma guarded_no_start (prev : bool) (c : ascii) (s rest : str) :
  guarded prev (c :: s) = true ->
  starts_with (token_text t) (c :: s ++ rest) = false.
Proof.
  intros Hg; rewrite token_text_body.
  destruct (token_body_first t) as (b & body & -> & Hb).
  cbn [app starts_with]; cbn [guarded] in Hg.
  destruct (is_at c) eqn:Hc.
  - apply andb_true_iff in Hg as [Hg _].
    apply andb_true_iff in Hg as [_ Hd].
    destruct s as [|d s]; [discriminate|]; cbn [app starts_with].
    rewrite (eqb_body_sep _ _ Hb Hd); cbn [andb]. apply andb_false_r.
  - unfold is_at in Hc; rewrite Ascii.eqb_sym, Hc; reflexivity.
Qed.

Lemma guarded_tail (prev : bool) (c : ascii) (s : str) :
  guarded prev (c :: s) = true -> exists prev', guarded prev' s = true.
Proof.
  cbn; destruct (is_at c); intros H.
  - apply andb_true_iff in H as [_ H]; now exists false.
  - now exists (is_sep c).
Qed.

(** An inert text is kept by the substitution of a token. *)
Lemma replace_all_inert (prev : bool) (s rest : str) :
  guarded prev s = true ->
  replace_all (s ++ rest) (token_text t) R
  = s ++ replace_all rest (token_text t) R.
Proof.
  revert prev; induction s as [|c s IH]; intros prev Hg; [reflexivity|].
  cbn [app]; rewrite replace_all_skip.
  - destruct (guarded_tail _ _ _ Hg) as [prev' Hg'].
    now rewrite (IH prev').
  - apply token_text_nonempty.
  - now apply guarded_no_start with prev.
Qed.

Lemma replace_all_inert_id (s : str) :
  inert s = true -> replace_all s (token_text t) R = s.
Proof.
  intros Hs; rewrite <- (app_nil_r s) at 1.
  rewrite (replace_all_inert false s [] Hs), replace_all_nil, app_nil_r;
    [reflexivity | apply token_text_nonempty].
Qed.

Lemma find_inert (prev : bool) (s : str) :
  guarded prev s = true -> find (token_text t) s = None.
Proof.
  revert prev; induction s as [|c s IH]; intros prev Hg.
  - apply find_nil, token_text_nonempty.
  - rewrite find_cons.
    + destruct (guarded_tail _ _ _ Hg) as [prev' Hg'].
      now rewrite (IH prev').
    + rewrite <- (app_nil_r s); now apply guarded_no_start with prev.
Qed.

(** The token is not found in an inert text. *)
Lemma contains_inert (s : str) :
  inert s = true -> contains (token_text t) s = false.
Proof. intros Hs; unfold contains; now rewrite (find_inert false s Hs). Qed.

End Token.

Lemma sep_first_no_start (body rest : str) :
  forallb is_body_char body = true -> sep_first rest = true ->
  starts_with (body ++ ["@"%char]) rest = false.
Proof.
  revert rest; induction body as [|b body IH]; intros [|c rest] Hb Hs;
    try reflexivity; cbn [app starts_with]; cbn [sep_first] in Hs.
  - destruct (is_at c) eqn:Hc; [discriminate|].
    unfold is_at in Hc; now rewrite Ascii.eqb_sym, Hc.
  - cbn [forallb] in Hb; apply andb_true_iff in Hb as [Hb Hbody].
    destruct (Ascii.eqb b c) eqn:Hbc; [|reflexivity].
    apply Ascii.eqb_eq in Hbc; subst c.
    rewrite (body_char_not_at _ Hb) in Hs.
    destruct (is_sep b) eqn:Hsep;
      [apply sep_not_body in Hsep; congruence|].
    now apply IH.
Qed.

Lemma guarded_sep_first (s rest : str) :
  guarded false s = true ->
  sep_first (s ++ rest) = if has_sep s then true else sep_first rest.
Proof.
  induction s as [|c s IH]; intros Hg; [reflexivity|].
  cbn [guarded] in Hg; cbn [app sep_first has_sep existsb].
  destruct (is_at c); [discriminate|].
  destruct (is_sep c); [reflexivity|]. now apply IH.
Qed.

Lemma separated_sep_first (ps : list piece) :
  separated false ps = true -> sep_first (flatten ps) = true.
Proof.
  induction ps as [|[s|t] ps IH]; intros H; [reflexivity| |discriminate].
  cbn [separated orb] in H; apply andb_true_iff in H as [Hs H].
  change (flatten (Text s :: ps)) with (s ++ flatten ps).
  rewrite (guarded_sep_first _ _ Hs).
  destruct (has_sep s); [reflexivity | now apply IH].
Qed.

Lemma separated_mono (seen : bool) (ps : list piece) :
  separated false ps = true -> separated seen ps = true.
Proof.
  destruct seen; [|auto].
  induction ps as [|[s|t] ps IH]; cbn; [reflexivity | | discriminate].
  intros H; apply andb_true_iff in H as [-> H]; cbn.
  destruct (has_sep s); [assumption | now apply IH].
Qed.

Lemma other_token_no_start (t t' : token) (rest : str) :
  t' <> t -> starts_with (token_text t) (token_text t' ++ rest) = false.
Proof. destruct t, t'; intros H; try congruence; reflexivity. Qed.

Lemma other_token_eqb (t t' : token) :
  t' <> t -> str_eqb (token_text t') (token_text t) = false.
Proof. destruct t, t'; intros H; try congruence; reflexivity. Qed.

Lemma str_eqb_refl (s : str) : str_eqb s s = true.
Proof. now apply str_eqb_eq. Qed.

Lemma token_eq_dec (t t' : token) : {t = t'} + {t <> t'}.
Proof. decide equality. Qed.

Section TokenStep.

Variable t : token.
Variable R : str.

(** Another token is kept, when a separator follows before the next
    [@]. *)
Lemma replace_all_other_token (t' : token) (rest : str) :
  t' <> t -> sep_first rest = true ->
  replace_all (token_text t' ++ rest) (token_text t) R
  = token_text t' ++ replace_all rest (token_text t) R.
Proof.
  intros Hne Hsep.
  pose proof (other_token_no_start rest Hne) as H0.
  rewrite (token_text_body t') in H0 |- *; cbn [app] in H0 |- *.
  rewrite replace_all_skip by (apply token_text_nonempty || exact H0).
  f_equal; rewrite <- !app_assoc.
  rewrite (replace_all_inert t R false (token_body t')).
  - f_equal; cbn [app]; rewrite replace_all_skip;
      [reflexivity | apply token_text_nonempty |].
    rewrite (token_text_body t); cbn [starts_with].
    rewrite (sep_first_no_start _ _ (token_body_chars t) Hsep).
    apply andb_false_r.
  - apply no_at_guarded; destruct t'; reflexivity.
Qed.

(** On a template whose tokens stand apart, the substitution of a token
    acts piece by piece. *)
Lemma replace_all_pieces (seen : bool) (ps : list piece) :
  separated seen ps = true ->
  replace_all (flatten ps) (token_text t) R
  = flatten (map (fun p => step_piece p (token_text t, R)) ps).
Proof.
  revert seen; induction ps as [|[s|t'] ps IH]; intros seen H.
  - apply replace_all_nil, token_text_nonempty.
  - cbn [separated] in H; apply andb_true_iff in H as [Hs H].
    change (flatten (Text s :: ps)) with (s ++ flatten ps).
    rewrite (replace_all_inert t R false s _ Hs), (IH _ H).
    cbn [map step_piece fst snd]; rewrite (replace_all_inert_id t R s Hs).
    reflexivity.
  - cbn [separated] in H; apply andb_true_iff in H as [_ H].
    change (flatten (Tok t' :: ps)) with (token_text t' ++ flatten ps).
    cbn [map step_piece fst snd].
    destruct (token_eq_dec t' t) as [->|Hne].
    + rewrite replace_all_match by apply token_text_nonempty.
      rewrite str_eqb_refl, (IH _ H); reflexivity.
    + rewrite (other_token_eqb Hne).
      rewrite replace_all_other_token
        by (assumption || now apply separated_sep_first).
      rewrite (IH _ H); reflexivity.
Qed.

(** The pieces still stand apart afterwards, the value being inert. *)
Lemma separated_step (seen : bool) (ps : list piece) :
  inert R = true -> separated seen ps = true ->
  separated seen (map (fun p => step_piece p (token_text t, R)) ps) = true.
Proof.
  intros HR; revert seen; induction ps as [|[s|t'] ps IH]; intros seen H;
    [reflexivity| |].
  - cbn [separated] in H; apply andb_true_iff in H as [Hs H].
    cbn [map step_piece fst snd separated].
    rewrite (replace_all_inert_id t R s Hs), Hs; cbn [andb].
    now apply IH.
  - cbn [separated] in H; apply andb_true_iff in H as [-> H].
    cbn [map step_piece fst snd].
    destruct (str_eqb (token_text t') (token_text t)).
    + cbn [separated orb]; rewrite HR; cbn [andb].
      apply IH; now apply separated_mono.
    + cbn [separated andb]; now apply IH.
Qed.

End TokenStep.

(** *** The substitution of the tab *)

Lemma replace_all_single_cons (c x : ascii) (to s : str) :
  replace_all (x :: s) [c] to
  = (if Ascii.eqb c x then to else [x]) ++ replace_all s [c] to.
Proof.
  destruct (Ascii.eqb c x) eqn:Hcx.
  - apply Ascii.eqb_eq in Hcx; subst x.
    now rewrite <- (replace_all_match (from := [c])).
  - rewrite replace_all_skip; [reflexivity | discriminate |].
    cbn [starts_with]; now rewrite Hcx.
Qed.

Lemma replace_all_single_app (c : ascii) (to a b : str) :
  replace_all (a ++ b) [c] to = replace_all a [c] to ++ replace_all b [c] to.
Proof.
  induction a as [|x a IH].
  - now rewrite replace_all_nil.
  - cbn [app]; now rewrite !replace_all_single_cons, IH, app_assoc.
Qed.

Lemma escape_cons (x : ascii) (s : str) :
  replace_all (x :: s) (c_literal "\t") (c_literal "\\t")
  = (if Ascii.eqb TAB x then [BACKSLASH; "t"%char] else [x])
      ++ replace_all s (c_literal "\t") (c_literal "\\t").
Proof. apply replace_all_single_cons. Qed.

Lemma tab_pieces (ps : list piece) :
  replace_all (flatten ps) (c_literal "\t") (c_literal "\\t")
  = flatten (map (fun p => step_piece p (c_literal "\t", c_literal "\\t")) ps).
Proof.
  induction ps as [|p ps IH]; [reflexivity|].
  change (flatten (p :: ps)) with (piece_text p ++ flatten ps).
  change (c_literal "\t") with [TAB] in *.
  rewrite replace_all_single_app, IH; cbn [map].
  change (flatten (?q :: ?qs)) with (piece_text q ++ flatten qs).
  f_equal; destruct p as [s|t]; [reflexivity|].
  destruct t; reflexivity.
Qed.

Lemma guarded_escape (prev : bool) (s : str) :
  guarded prev s = true ->
  guarded prev (replace_all s (c_literal "\t") (c_literal "\\t")) = true.
Proof.
  revert prev; induction s as [|c s IH]; intros prev Hg; [reflexivity|].
  rewrite escape_cons; destruct (Ascii.eqb TAB c) eqn:Hc.
  - apply Ascii.eqb_eq in Hc; subst c. cbn [app]; now apply (IH true).
  - cbn [app guarded] in *; destruct (is_at c); [|now apply IH].
    apply andb_true_iff in Hg as [Hg Hs].
    apply andb_true_iff in Hg as [-> Hd].
    rewrite (IH false Hs); destruct s as [|d s]; [discriminate|].
    rewrite escape_cons; destruct (Ascii.eqb TAB d); cbn [app];
      [reflexivity | now rewrite Hd].
Qed.

Lemma has_sep_escape (s : str) :
  has_sep s = true ->
  has_sep (replace_all s (c_literal "\t") (c_literal "\\t")) = true.
Proof.
  induction s as [|c s IH]; [discriminate|].
  rewrite escape_cons; destruct (Ascii.eqb TAB c) eqn:Hc; [reflexivity|].
  cbn [app has_sep existsb]; intros H.
  apply orb_true_iff in H as [->|H]; [reflexivity|].
  unfold has_sep in IH; rewrite (IH H); apply orb_true_r.
Qed.

Lemma separated_le (seen seen' : bool) (ps : list piece) :
  (seen = true -> seen' = true) ->
  separated seen ps = true -> separated seen' ps = true.
Proof.
  destruct seen; intros Hle H.
  - now rewrite Hle.
  - now apply separated_mono.
Qed.

Lemma separated_tab (seen : bool) (ps : list piece) :
  separated seen ps = true ->
  separated seen
    (map (fun p => step_piece p (c_literal "\t", c_literal "\\t")) ps) = true.
Proof.
  revert seen; induction ps as [|[s|t] ps IH]; intros seen H; [reflexivity| |].
  - cbn [separated] in H; apply andb_true_iff in H as [Hs H].
    cbn [map step_piece fst snd separated].
    unfold inert; rewrite (guarded_escape _ _ Hs); cbn [andb].
    apply IH; revert H; apply separated_le.
    intros Hor; apply orb_true_iff in Hor as [->|Hsep]; [reflexivity|].
    rewrite (has_sep_escape _ Hsep); apply orb_true_r.
  - cbn [separated] in H; apply andb_true_iff in H as [-> H].
    cbn [map step_piece fst snd].
    replace (str_eqb (token_text t) (c_literal "\t")) with false
      by (destruct t; reflexivity).
    cbn [separated andb]; now apply IH.
Qed.

Lemma escape_no_tab_id (s : str) :
  no_tab s = true -> replace_all s (c_literal "\t") (c_literal "\\t") = s.
Proof.
  induction s as [|c s IH]; intros H; [reflexivity|].
  cbn [no_tab forallb] in H; apply andb_true_iff in H as [Hc H].
  rewrite escape_cons, (IH H).
  apply negb_true_iff in Hc; rewrite Ascii.eqb_sym, Hc; reflexivity.
Qed.

Lemma escape_no_tab (s : str) :
  no_tab (replace_all s (c_literal "\t") (c_literal "\\t")) = true.
Proof.
  induction s as [|c s IH]; [reflexivity|].
  rewrite escape_cons; destruct (Ascii.eqb TAB c) eqn:Hc.
  - cbn [app no_tab forallb]; exact IH.
  - cbn [app no_tab forallb]; rewrite Ascii.eqb_sym, Hc; exact IH.
Qed.

(** *** The values substituted *)

Lemma uint_digits (d : Decimal.uint) :
  forallb is_digit (lit (NilEmpty.string_of_uint d)) = true.
Proof. induction d; cbn; auto. Qed.

Lemma format_zu_digits (n : N) : forallb is_digit (format_zu n) = true.
Proof.
  unfold format_zu, NilZero.string_of_uint.
  destruct (N.to_uint n); try apply (uint_digits (_ _)); reflexivity.
Qed.

Lemma forallb_impl (P Q : ascii -> bool) (s : str) :
  (forall c, P c = true -> Q c = true) ->
  forallb P s = true -> forallb Q s = true.
Proof.
  intros HPQ; induction s as [|c s IH]; cbn; [reflexivity|].
  intros H; apply andb_true_iff in H as [Hc Hs].
  now rewrite (HPQ c Hc), IH.
Qed.

Lemma digit_no_at (c : ascii) : is_digit c = true -> negb (is_at c) = true.
Proof.
  intros Hd; destruct (is_at c) eqn:Ha; [|reflexivity].
  apply is_at_eq in Ha; subst c; discriminate.
Qed.

Lemma digit_no_tab (c : ascii) :
  is_digit c = true -> negb (Ascii.eqb c TAB) = true.
Proof.
  intros Hd; destruct (Ascii.eqb c TAB) eqn:Ha; [|reflexivity].
  apply Ascii.eqb_eq in Ha; subst c; discriminate.
Qed.

Lemma format_zu_no_at (n : N) : no_at (format_zu n) = true.
Proof. exact (forallb_impl _ _ _ digit_no_at (format_zu_digits n)). Qed.

Lemma format_zu_no_tab (n : N) : no_tab (format_zu n) = true.
Proof. exact (forallb_impl _ _ _ digit_no_tab (format_zu_digits n)). Qed.

Lemma c_str_forallb (P : ascii -> bool) (s : str) :
  forallb P s = true -> forallb P (c_str s) = true.
Proof.
  induction s as [|c s IH]; cbn; [reflexivity|].
  intros H; apply andb_true_iff in H as [Hc Hs].
  destruct (Ascii.eqb c NUL); cbn; [reflexivity|].
  now rewrite Hc, IH.
Qed.

Lemma no_tab_app (a b : str) : no_tab (a ++ b) = no_tab a && no_tab b.
Proof. apply forallb_app. Qed.

Lemma menu_item_inert (name : str) :
  no_at name = true -> inert (menu_item name) = true.
Proof.
  intros Hn; rewrite menu_item_eq.
  apply (inert_app [DQUOTE]); [reflexivity|].
  apply inert_app; [|reflexivity].
  apply no_at_inert, c_str_forallb, Hn.
Qed.

Lemma menu_item_no_tab (name : str) :
  no_tab name = true -> no_tab (menu_item name) = true.
Proof.
  intros Hn; rewrite menu_item_eq; unfold no_tab in *.
  cbn [forallb]; rewrite forallb_app, (c_str_forallb _ _ Hn); reflexivity.
Qed.

Lemma selection_item_no_at (index : N) (rom_id name : str) :
  no_at rom_id = true -> no_at name = true ->
  no_at (selection_item index rom_id name) = true.
Proof.
  intros Hi Hn; rewrite selection_item_eq.
  pose proof (format_zu_no_at index) as Hz; unfold no_at in *.
  rewrite !forallb_app, (c_str_forallb _ _ Hi), (c_str_forallb _ _ Hn), Hz.
  reflexivity.
Qed.

Lemma selection_item_no_tab (index : N) (rom_id name : str) :
  no_tab rom_id = true -> no_tab name = true ->
  no_tab (selection_item index rom_id name) = true.
Proof.
  intros Hi Hn; rewrite selection_item_eq.
  pose proof (format_zu_no_tab index) as Hz; unfold no_tab in *.
  rewrite !forallb_app, (c_str_forallb _ _ Hi), (c_str_forallb _ _ Hn), Hz.
  reflexivity.
Qed.

Lemma rom_items_inert (E : Env) (roms : list Rom.t) :
  (forall rom, In rom roms ->
     no_at (Rom.id rom) = true /\ no_at (rom_name E rom) = true) ->
  forall i menu sel, inert menu = true -> inert sel = true ->
  inert (fst (rom_items E i roms menu sel)) = true
  /\ inert (snd (rom_items E i roms menu sel)) = true.
Proof.
  induction roms as [|rom roms IH]; intros Hroms i menu sel Hm Hs;
    [now split|].
  destruct (Hroms rom (or_introl eq_refl)) as [Hid Hname].
  cbn [rom_items]; apply IH.
  - intros r Hr; apply Hroms; now right.
  - apply inert_app; [exact Hm | now apply menu_item_inert].
  - apply inert_app; [exact Hs|].
    now apply no_at_inert, selection_item_no_at.
Qed.

Lemma rom_items_no_tab (E : Env) (roms : list Rom.t) :
  (forall rom, In rom roms ->
     no_tab (Rom.id rom) = true /\ no_tab (rom_name E rom) = true) ->
  forall i menu sel, no_tab menu = true -> no_tab sel = true ->
  no_tab (fst (rom_items E i roms menu sel)) = true
  /\ no_tab (snd (rom_items E i roms menu sel)) = true.
Proof.
  induction roms as [|rom roms IH]; intros Hroms i menu sel Hm Hs;
    [now split|].
  destruct (Hroms rom (or_introl eq_refl)) as [Hid Hname].
  cbn [rom_items]; apply IH.
  - intros r Hr; apply Hroms; now right.
  - rewrite no_tab_app, Hm; now apply menu_item_no_tab.
  - rewrite no_tab_app, Hs; now apply selection_item_no_tab.
Qed.

Lemma last_index_eq (E : Env) :
  last_index E
  = format_zu (size_add E 2 (N.of_nat (length (installed E)))).
Proof.
  unfold last_index.
  change (format (lit "%zu") [ArgZu ?n]) with (format_zu n ++ []).
  apply app_nil_r.
Qed.

Lemma token_value_inert (E : Env) (t : token) :
  values_no_at E -> inert (token_value E t) = true.
Proof.
  intros [Hv Hroms]; destruct t; cbn [token_value].
  - now apply no_at_inert.
  - now apply rom_items_inert.
  - now apply rom_items_inert.
  - reflexivity.
  - rewrite last_index_eq; apply no_at_inert, format_zu_no_at.
Qed.

Lemma token_value_no_tab (E : Env) (t : token) :
  values_no_tab E -> no_tab (token_value E t) = true.
Proof.
  intros [Hv Hroms]; destruct t; cbn [token_value].
  - exact Hv.
  - now apply rom_items_no_tab.
  - now apply rom_items_no_tab.
  - reflexivity.
  - rewrite last_index_eq; apply format_zu_no_tab.
Qed.

(** *** The six substitutions, piece by piece *)

Lemma substitutions_cases (E : Env) (x : str * str) :
  In x (substitutions E) ->
  x = (c_literal "\t", c_literal "\\t")
  \/ exists t, x = (token_text t, token_value E t).
Proof.
  intros [<-|[<-|[<-|[<-|[<-|[<-|[]]]]]]]; [now left|right..].
  - now exists TokVersion.
  - now exists TokMenuItems.
  - now exists TokSelectionItems.
  - now exists TokFirstIndex.
  - now exists TokLastIndex.
Qed.

Lemma token_step_in (E : Env) (t : token) :
  In (token_text t, token_value E t) (substitutions E).
Proof. destruct t; cbn; auto 10. Qed.

(** One substitution acts piece by piece and keeps the pieces apart. *)
Lemma step_pieces (E : Env) (x : str * str) (seen : bool) (ps : list piece) :
  values_no_at E -> In x (substitutions E) -> separated seen ps = true ->
  replace_all (flatten ps) (fst x) (snd x)
  = flatten (map (fun p => step_piece p x) ps)
  /\ separated seen (map (fun p => step_piece p x) ps) = true.
Proof.
  intros Hv Hx Hs.
  destruct (substitutions_cases Hx) as [->|[t ->]]; cbn [fst snd].
  - split; [apply tab_pieces | now apply separated_tab].
  - split; [now apply replace_all_pieces with seen|].
    apply separated_step; [now apply token_value_inert | exact Hs].
Qed.

Lemma apply_pieces (E : Env) (steps : list (str * str)) :
  values_no_at E ->
  (forall x, In x steps -> In x (substitutions E)) ->
  forall seen ps, separated seen ps = true ->
  apply_substitutions steps (flatten ps)
  = flatten (map (fun p => fold_left step_piece steps p) ps).
Proof.
  intros Hv; induction steps as [|x steps IH]; intros Hsteps seen ps Hs.
  - cbn; now rewrite map_id.
  - destruct (@step_pieces E x seen ps Hv (Hsteps x (or_introl eq_refl)) Hs)
      as [Heq Hs'].
    unfold apply_substitutions in *; cbn [fold_left].
    unfold apply_substitution at 2; rewrite Heq.
    rewrite (IH (fun y Hy => Hsteps y (or_intror Hy)) seen _ Hs'), map_map.
    reflexivity.
Qed.

Lemma separated_text_inert (seen : bool) (ps : list piece) (s : str) :
  separated seen ps = true -> In (Text s) ps -> inert s = true.
Proof.
  revert seen; induction ps as [|[s'|t] ps IH]; intros seen H Hin;
    [destruct Hin| |].
  - cbn [separated] in H; apply andb_true_iff in H as [Hs' H].
    destruct Hin as [[= ->]|Hin]; [exact Hs' | exact (IH _ H Hin)].
  - cbn [separated] in H; apply andb_true_iff in H as [_ H].
    destruct Hin as [Hin|Hin]; [discriminate | exact (IH _ H Hin)].
Qed.

Section Steps.

Variable E : Env.
Hypothesis values_inert : values_no_at E.

(** Substitutions of tokens keep an inert text. *)
Lemma fold_token_steps_text (steps : list (str * str)) (s : str) :
  (forall x, In x steps -> exists t, x = (token_text t, token_value E t)) ->
  inert s = true ->
  fold_left step_piece steps (Text s) = Text s.
Proof.
  induction steps as [|x steps IH]; intros Hsteps Hs; [reflexivity|].
  destruct (Hsteps x (or_introl eq_refl)) as [t ->].
  cbn [fold_left step_piece fst snd].
  rewrite (replace_all_inert_id t _ s Hs).
  apply IH; [|exact Hs]. intros y Hy; apply Hsteps; now right.
Qed.

(** They turn a token into its value as soon as its turn comes. *)
Lemma fold_token_steps_tok (steps : list (str * str)) (t : token) :
  (forall x, In x steps -> exists t', x = (token_text t', token_value E t')) ->
  In (token_text t, token_value E t) steps ->
  fold_left step_piece steps (Tok t) = Text (token_value E t).
Proof.
  induction steps as [|x steps IH]; intros Hsteps Hin; [destruct Hin|].
  destruct (Hsteps x (or_introl eq_refl)) as [t' ->].
  assert (Hrest : forall y, In y steps ->
                    exists t0, y = (token_text t0, token_value E t0))
    by (intros y Hy; apply Hsteps; now right).
  cbn [fold_left step_piece fst snd].
  destruct (token_eq_dec t t') as [<-|Hne].
  - rewrite str_eqb_refl.
    apply fold_token_steps_text;
      [exact Hrest | now apply token_value_inert].
  - rewrite (other_token_eqb Hne). apply IH; [exact Hrest|].
    destruct Hin as [Heq|Hin]; [|exact Hin].
    exfalso; apply Hne.
    apply (f_equal fst) in Heq; cbn in Heq.
    destruct t, t'; try reflexivity; discriminate.
Qed.

(** In the order of the code, a piece becomes its final form. *)
Lemma code_order_piece (p : piece) :
  (forall s, p = Text s -> inert s = true) ->
  fold_left step_piece (substitutions E) p = final_piece E p.
Proof.
  intros Hp.
  assert (Hrest : forall x, In x (tl (substitutions E)) ->
                    exists t, x = (token_text t, token_value E t)).
  { intros x [<-|[<-|[<-|[<-|[<-|[]]]]]].
    - now exists TokVersion.
    - now exists TokMenuItems.
    - now exists TokSelectionItems.
    - now exists TokFirstIndex.
    - now exists TokLastIndex. }
  change (substitutions E)
    with ((c_literal "\t", c_literal "\\t") :: tl (substitutions E)).
  cbn [fold_left]; destruct p as [s|t].
  - cbn [step_piece fst snd final_piece].
    apply fold_token_steps_text; [exact Hrest|].
    apply guarded_escape, Hp; reflexivity.
  - replace (step_piece (Tok t) (c_literal "\t", c_literal "\\t"))
      with (Tok t) by (destruct t; reflexivity).
    apply fold_token_steps_tok; [exact Hrest|].
    destruct t; cbn; auto 10.
Qed.

(** The rewrite of a template whose tokens stand apart. *)
Lemma generate_aroma_config_pieces (ps : list piece) :
  well_formed_template ps = true ->
  generate_aroma_config E (flatten ps) = flatten (map (final_piece E) ps).
Proof.
  intros Hwf; rewrite generate_aroma_config_fold.
  rewrite (@apply_pieces E (substitutions E) values_inert (fun x H => H)
             true ps Hwf).
  f_equal; apply map_ext_in; intros p Hp.
  apply code_order_piece; intros s ->.
  exact (separated_text_inert _ _ _ Hwf Hp).
Qed.

Lemma final_pieces_inert (ps : list piece) :
  (forall s, In (Text s) ps -> inert s = true) ->
  inert (flatten (map (final_piece E) ps)) = true.
Proof.
  induction ps as [|p ps IH]; intros Hps; [reflexivity|].
  cbn [map]; change (flatten (?q :: ?qs)) with (piece_text q ++ flatten qs).
  apply inert_app; [|apply IH; intros s Hs; apply Hps; now right].
  destruct p as [s|t]; cbn [final_piece piece_text].
  - apply guarded_escape, Hps; now left.
  - now apply token_value_inert.
Qed.

End Steps.

(** C5, as amended.  [on_reached_file] never opens an entry named
    [META-INF/com/google/android/aroma-config.in]; for the node whose name
    is that one, once the file is read, it adds the rewritten bytes under
    the name [META-INF/com/google/android/aroma-config].  When the tokens of
    the template stand apart (every [@] outside a token stands between two
    characters that are no upper-case letter, underscore or [@], and such a
    character stands between any two tokens) and neither the version nor
    the ids and names of the ROMs contain [@], the rewritten bytes contain
    none of the five tokens. *)
Theorem template_entry_renamed
    (E : Env) (root : str) (_curr : WalkNode) (k : nat) :
  (forall e, In e (opened_entries (snd (on_reached_file E root _curr k))) ->
             fst (fst e) <> TEMPLATE_NAME)
  /\ (forall data,
         substr (fts_path _curr) (length root + 1) = Some TEMPLATE_NAME ->
         file_read_all E (fts_accpath _curr) = Some data ->
         on_reached_file E root _curr k
         = let r := add_file_contents E CONFIG_NAME
                      (generate_aroma_config E data) (k + 1 + 1) in
           (Some (if fst r then FTS_OK E else FTS_Fail E),
            Log LogD :: CallFileReadAll (fts_accpath _curr) true :: snd r))
  /\ (forall ps t,
         well_formed_template ps = true -> values_no_at E ->
         contains (token_text t) (generate_aroma_config E (flatten ps))
         = false).
Proof.
  split; [|split].
  - intros e He.
    destruct (on_reached_file_opened E root _curr k e He) as (name & _ & ->).
    destruct (str_eqb name TEMPLATE_NAME) eqn:Hn.
    + intros H; apply (f_equal (@length _)) in H; discriminate.
    + intros ->; rewrite str_eqb_refl in Hn; discriminate.
  - intros data Hsub Hread.
    rewrite on_reached_file_run, Hsub, str_eqb_refl, Hread; reflexivity.
  - intros ps t Hwf Hv.
    rewrite (generate_aroma_config_pieces Hv ps Hwf).
    apply contains_inert, final_pieces_inert; [exact Hv|].
    intros s Hs; exact (separated_text_inert _ _ _ Hwf Hs).
Qed.

Lemma template_entry_renamed_witness :
  well_formed_template sample_template = true
  /\ values_no_at env_two
  /\ contains TOKEN_MENU_ITEMS
       (generate_aroma_config env_two (flatten sample_template)) = false.
Proof.
  assert (Hv : values_no_at env_two).
  { split; [reflexivity|].
    intros rom [<-|[<-|[]]]; split; reflexivity. }
  split; [reflexivity|]; split; [exact Hv|].
  destruct (template_entry_renamed env_two [] template_node 0)
    as (_ & _ & H).
  exact (H sample_template TokMenuItems eq_refl Hv).
Defined.

(** C5 as stated fails: with no ROM installed the menu-items token is
    replaced by the empty string, which joins the two halves of another
    occurrence of the token; the bytes added to the archive are then that
    very token. *)
Lemma template_tokens_remain_counterexample :
  installed env_tree = []
  /\ file_read_all env_tree (fts_accpath template_node)
     = Some (lit "@ROM_MENU_@ROM_MENU_ITEMS@ITEMS@")
  /\ nth_error
       (snd (on_reached_file env_tree (lit "/tmp/aroma") template_node 0)) 3
     = Some (CallZipWriteInFileInZip TOKEN_MENU_ITEMS 16 ZIP_OK)
  /\ contains TOKEN_MENU_ITEMS
       (generate_aroma_config env_tree (lit "@ROM_MENU_@ROM_MENU_ITEMS@ITEMS@"))
     = true.
Proof. repeat split; vm_compute; reflexivity. Qed.

(** *** Any order of the substitutions *)

Section Permuted.

Variable E : Env.
Hypothesis values_inert : values_no_at E.
Hypothesis values_plain : values_no_tab E.

(** An inert text without tab is kept by every substitution. *)
Lemma fold_done (steps : list (str * str)) (s : str) :
  (forall x, In x steps -> In x (substitutions E)) ->
  inert s = true -> no_tab s = true ->
  fold_left step_piece steps (Text s) = Text s.
Proof.
  induction steps as [|x steps IH]; intros Hsteps Hs Ht; [reflexivity|].
  cbn [fold_left step_piece].
  assert (Hx : replace_all s (fst x) (snd x) = s).
  { destruct (substitutions_cases (Hsteps x (or_introl eq_refl)))
      as [->|[t ->]]; cbn [fst snd].
    - now apply escape_no_tab_id.
    - now apply replace_all_inert_id. }
  rewrite Hx; apply IH; [|exact Hs|exact Ht].
  intros y Hy; apply Hsteps; now right.
Qed.

Lemma tab_step_not_token (t : token) :
  (c_literal "\t", c_literal "\\t") <> (token_text t, token_value E t).
Proof. intros H; apply (f_equal fst) in H; destruct t; discriminate. Qed.

(** An inert text is escaped when the turn of the tab comes. *)
Lemma fold_text (steps : list (str * str)) (s : str) :
  (forall x, In x steps -> In x (substitutions E)) ->
  inert s = true ->
  In (c_literal "\t", c_literal "\\t") steps ->
  fold_left step_piece steps (Text s)
  = Text (replace_all s (c_literal "\t") (c_literal "\\t")).
Proof.
  induction steps as [|x steps IH]; intros Hsteps Hs Hin; [destruct Hin|].
  assert (Hrest : forall y, In y steps -> In y (substitutions E))
    by (intros y Hy; apply Hsteps; now right).
  cbn [fold_left step_piece].
  destruct (substitutions_cases (Hsteps x (or_introl eq_refl)))
    as [->|[t ->]]; cbn [fst snd].
  - apply fold_done; [exact Hrest | now apply guarded_escape |].
    apply escape_no_tab.
  - rewrite (replace_all_inert_id t _ s Hs).
    apply IH; [exact Hrest | exact Hs |].
    destruct Hin as [Heq|Hin]; [|exact Hin].
    symmetry in Heq; destruct (tab_step_not_token t Heq).
Qed.

(** A token becomes its value when its turn comes. *)
Lemma fold_tok (steps : list (str * str)) (t : token) :
  (forall x, In x steps -> In x (substitutions E)) ->
  In (token_text t, token_value E t) steps ->
  fold_left step_piece steps (Tok t) = Text (token_value E t).
Proof.
  induction steps as [|x steps IH]; intros Hsteps Hin; [destruct Hin|].
  assert (Hrest : forall y, In y steps -> In y (substitutions E))
    by (intros y Hy; apply Hsteps; now right).
  cbn [fold_left step_piece].
  destruct (substitutions_cases (Hsteps x (or_introl eq_refl)))
    as [->|[t' ->]]; cbn [fst snd].
  - replace (str_eqb (token_text t) (c_literal "\t")) with false
      by (destruct t; reflexivity).
    apply IH; [exact Hrest|].
    destruct Hin as [Heq|Hin]; [|exact Hin].
    destruct (tab_step_not_token t Heq).
  - destruct (token_eq_dec t t') as [<-|Hne].
    + rewrite str_eqb_refl. apply fold_done; [exact Hrest | |].
      * now apply token_value_inert.
      * now apply token_value_no_tab.
    + rewrite (other_token_eqb Hne). apply IH; [exact Hrest|].
      destruct Hin as [Heq|Hin]; [|exact Hin].
      exfalso; apply Hne.
      apply (f_equal fst) in Heq; cbn in Heq.
      destruct t, t'; try reflexivity; discriminate.
Qed.

(** In any order, a piece becomes its final form. *)
Lemma permuted_piece (steps : list (str * str)) (p : piece) :
  Permutation steps (substitutions E) ->
  (forall s, p = Text s -> inert s = true) ->
  fold_left step_piece steps p = final_piece E p.
Proof.
  intros Hperm Hp.
  assert (Hsub : forall x, In x steps -> In x (substitutions E))
    by (intros x; apply Permutation_in, Hperm).
  assert (Hsup : forall x, In x (substitutions E) -> In x steps)
    by (intros x; apply Permutation_in; now symmetry).
  destruct p as [s|t]; cbn [final_piece].
  - apply fold_text; [exact Hsub | now apply Hp |].
    apply Hsup; now left.
  - apply fold_tok; [exact Hsub|]. apply Hsup, token_step_in.
Qed.

End Permuted.

(** C9, as amended.  When the tokens of the template stand apart (every
    [@] outside a token stands between two characters that are no
    upper-case letter, underscore or [@], and such a character stands
    between any two tokens) and neither the version nor the ids and names
    of the ROMs contain [@] or a tab, the six substitutions applied in any
    order give the output of the code. *)
Theorem substitution_order_independent
    (E : Env) (ps : list piece) (steps : list (str * str)) :
  well_formed_template ps = true ->
  values_no_at E -> values_no_tab E ->
  Permutation steps (substitutions E) ->
  apply_substitutions steps (flatten ps)
  = generate_aroma_config E (flatten ps).
Proof.
  intros Hwf Hv Ht Hperm.
  rewrite (generate_aroma_config_pieces Hv ps Hwf).
  assert (Hsub : forall x, In x steps -> In x (substitutions E))
    by (intros x; apply Permutation_in, Hperm).
  rewrite (@apply_pieces E steps Hv Hsub true ps Hwf).
  f_equal; apply map_ext_in; intros p Hp.
  apply permuted_piece; try assumption.
  intros s ->; exact (separated_text_inert _ _ _ Hwf Hp).
Qed.

Lemma substitution_order_independent_witness :
  Permutation (rev (substitutions env_two)) (substitutions env_two)
  /\ apply_substitutions (rev (substitutions env_two))
       (flatten sample_template)
     = generate_aroma_config env_two (flatten sample_template).
Proof.
  assert (Hperm : Permutation (rev (substitutions env_two))
                              (substitutions env_two))
    by (symmetry; apply Permutation_rev).
  split; [exact Hperm|].
  apply substitution_order_independent; [reflexivity | | | exact Hperm].
  - split; [reflexivity|].
    intros rom [<-|[<-|[]]]; split; reflexivity.
  - split; [reflexivity|].
    intros rom [<-|[<-|[]]]; split; reflexivity.
Defined.

(** C9 as stated fails: with no ROM installed, replacing the menu-items
    token before the first-index token makes a first-index token out of
    its two halves, which the code then replaces by 3; in the reverse
    order the first-index token is looked for too early and stays. *)
Lemma substitution_order_counterexample :
  Permutation (rev (substitutions env_empty)) (substitutions env_empty)
  /\ generate_aroma_config env_empty (lit "@FIRST_@ROM_MENU_ITEMS@INDEX@")
     = lit "3"
  /\ apply_substitutions (rev (substitutions env_empty))
       (lit "@FIRST_@ROM_MENU_ITEMS@INDEX@")
     = lit "@FIRST_INDEX@"
  /\ apply_substitutions (rev (substitutions env_empty))
       (lit "@FIRST_@ROM_MENU_ITEMS@INDEX@")
     <> generate_aroma_config env_empty (lit "@FIRST_@ROM_MENU_ITEMS@INDEX@").
Proof.
  split; [symmetry; apply Permutation_rev|].
  repeat split; try (vm_compute; reflexivity).
  vm_compute; discriminate.
Qed.

(** * Further properties *)

(** ** The archive builder *)

Local Open Scope Z_scope.

Lemma streamed_result (b : bool) (calls : list call) :
  streamed b calls -> (b = true <-> existsb stream_error calls = false).
Proof.
  induction 1 as [| n Hn | n buf len r Hn Hr | n buf len b rest Hn Hs IH].
  - cbn; tauto.
  - cbn; assert ((n <? 0) = true) as -> by (apply Z.ltb_lt; lia).
    cbn; split; discriminate.
  - cbn; assert ((n <? 0) = false) as -> by (apply Z.ltb_ge; lia).
    assert ((r =? ZIP_OK) = false) as -> by (now apply Z.eqb_neq).
    cbn; split; discriminate.
  - cbn; assert ((n <? 0) = false) as -> by (apply Z.ltb_ge; lia).
    cbn; exact IH.
Qed.

Lemma streamed_opens_none (b : bool) (calls : list call) :
  streamed b calls -> existsb opens_entry calls = false.
Proof. induction 1; cbn; auto. Qed.

(** X1.  [add_file(name, path)] returns [true] exactly when it opened the
    entry record and met neither a read error nor a write error. *)
Theorem add_file_path_result (E : Env) (name path : str) (k : nat) :
  fst (add_file_path E name path k) = true
  <-> existsb opens_entry (snd (add_file_path E name path k)) = true
      /\ existsb stream_error (snd (add_file_path E name path k)) = false.
Proof.
  pose proof (add_file_path_run E name path k) as Hrun.
  destruct (open64 E path) as [f|];
    [|rewrite Hrun; cbn; split; [discriminate | intros [H _]; discriminate]].
  destruct (fstat_mode f) as [st_mode|];
    [|rewrite Hrun; cbn; split; [discriminate | intros [H _]; discriminate]].
  destruct Hrun as (rc & b & tail & -> & Htail); cbn [fst snd].
  rewrite !existsb_app.
  destruct Htail as [(Hrc & -> & ->)|(-> & Hs)].
  - apply Z.eqb_neq in Hrc; cbn; rewrite Hrc; cbn.
    split; [discriminate | intros [H _]; discriminate].
  - rewrite (streamed_opens_none Hs), (streamed_result Hs); cbn. tauto.
Qed.

Lemma written_bytes_app (l1 l2 : list call) :
  written_bytes (l1 ++ l2) = written_bytes l1 ++ written_bytes l2.
Proof. apply flat_map_app. Qed.

Lemma to_unsigned_small (z : Z) : 0 <= z < 2 ^ 32 -> to_unsigned z = z.
Proof. intros H; now apply Z.mod_small. Qed.

(** Without a write error, the loop writes what it reads. *)
Lemma copy_loop_written (E : Env) (rs : list (Z * str)) :
  reads_fit rs ->
  forall k,
    fst (fst (copy_loop E rs k)) = None ->
    written_bytes (snd (copy_loop E rs k)) = read_bytes rs.
Proof.
  induction rs as [|[n buf] rest IH]; intros Hfit k; [reflexivity|].
  cbn [copy_loop read_bytes]; rewrite bind_run; cbn [emit fst snd length app].
  destruct (0 <? n) eqn:Hn; [|reflexivity].
  apply Z.ltb_lt in Hn.
  assert (Hle : n <= 32768) by (apply (Hfit n buf); now left).
  rewrite bind_run; cbn [zipWriteInFileInZip zip_call fst snd length app].
  rewrite (to_unsigned_small (z := n)) by lia.
  destruct (zip_result E (k + 1)%nat =? ZIP_OK) eqn:Hr; cbn [negb].
  - intros Hnone.
    change (written_bytes (?a :: ?b :: ?l))
      with (written_bytes ([a; b] ++ l)).
    rewrite written_bytes_app, IH;
      [|intros m b Hin; apply (Hfit m b); now right|exact Hnone].
    cbn [written_bytes flat_map app]; rewrite Hr; now rewrite app_nil_r.
  - rewrite !bind_run; cbn; discriminate.
Qed.

Lemma copy_loop_some (E : Env) (rs : list (Z * str)) (k : nat) (b : bool) :
  fst (fst (copy_loop E rs k)) = Some b -> b = false.
Proof.
  revert k; induction rs as [|[n buf] rest IH]; intros k; [discriminate|].
  cbn [copy_loop]; rewrite bind_run; cbn [emit fst snd length app].
  destruct (0 <? n); [|discriminate].
  rewrite bind_run; cbn [zipWriteInFileInZip zip_call fst snd length app].
  destruct (zip_result E (k + 1)%nat =? ZIP_OK); cbn [negb].
  - apply IH.
  - rewrite !bind_run; cbn; congruence.
Qed.

(** X2.  When [add_file(name, path)] returns [true], no [read] returning
    more than the buffer holds, the bytes given to the successful
    [zipWriteInFileInZip] calls are, in order, the bytes that the [read]
    calls delivered up to the end of the file. *)
Theorem add_file_path_copies
    (E : Env) (name path : str) (k : nat) (f : source_file) :
  open64 E path = Some f -> reads_fit (reads f) ->
  fst (add_file_path E name path k) = true ->
  written_bytes (snd (add_file_path E name path k)) = read_bytes (reads f).
Proof.
  intros Ho Hfit; unfold add_file_path; rewrite Ho.
  rewrite bind_run; cbn [emit fst snd length app].
  destruct (fstat_mode f) as [st_mode|]; [|cbn; discriminate].
  repeat (rewrite bind_run; cbn [emit fst snd length app]).
  cbn [zipOpenNewFileInZip2_64 zip_call fst snd length app].
  set (k' := (k + 1 + 1 + 1 + 1 + 1)%nat).
  destruct (zip_result E k' =? ZIP_OK); cbn [negb]; [|cbn; discriminate].
  rewrite bind_run.
  pose proof (@copy_loop_written E (reads f) Hfit (k' + 1)%nat) as Hw.
  pose proof (@copy_loop_some E (reads f) (k' + 1)%nat) as Hsome.
  destruct (copy_loop E (reads f) (k' + 1)%nat) as [[[b|] m] calls];
    cbn [fst snd] in *.
  - intros Hb; cbn in Hb; rewrite (Hsome b eq_refl) in Hb; discriminate.
  - destruct (m <? 0); [cbn; discriminate|]. intros _.
    cbn [written_bytes flat_map app].
    change (flat_map _ ?l) with (written_bytes l).
    rewrite written_bytes_app, (Hw eq_refl); cbn. apply app_nil_r.
Qed.

Lemma add_file_path_copies_witness :
  written_bytes
    (snd (add_file_path env_small (lit "a.txt") (lit "a.txt") 0%nat))
  = lit "hello world".
Proof.
  rewrite (@add_file_path_copies env_small (lit "a.txt") (lit "a.txt") 0%nat
             small_file);
    [reflexivity | reflexivity | | reflexivity].
  intros n buf [[= <- <-]|[[= <- <-]|[]]]; cbn; lia.
Defined.

Lemma add_file_contents_entry_closed (E : Env) (name contents : str) (k : nat) :
  entry_open (snd (add_file_contents E name contents k)) = false.
Proof.
  rewrite add_file_contents_run.
  destruct (zip_result E k =? ZIP_OK) eqn:H1; cbn [negb];
    [destruct (zip_result E (k + 1) =? ZIP_OK); cbn [negb snd]|cbn [snd]];
    unfold entry_open; cbn [fold_left entry_step]; rewrite ?H1; reflexivity.
Qed.

(** X3.  [add_file(name, contents)] returns [true] exactly when both the
    opening and the writing returned [ZIP_OK]; it never leaves the entry
    record open, and does not touch it when the opening failed; on
    success the bytes written are the whole buffer, its size fitting the
    [unsigned] length of [zipWriteInFileInZip]. *)
Theorem add_file_contents_result (E : Env) (name contents : str) (k : nat) :
  (fst (add_file_contents E name contents k) = true
   <-> zip_result E k = ZIP_OK /\ zip_result E (k + 1) = ZIP_OK)
  /\ entry_open (snd (add_file_contents E name contents k)) = false
  /\ (zip_result E k <> ZIP_OK ->
      existsb is_close_entry (snd (add_file_contents E name contents k))
      = false
      /\ written_bytes (snd (add_file_contents E name contents k)) = [])
  /\ (Z.of_nat (length contents) < 2 ^ 32 ->
      fst (add_file_contents E name contents k) = true ->
      written_bytes (snd (add_file_contents E name contents k)) = contents).
Proof.
  rewrite add_file_contents_run.
  destruct (zip_result E k =? ZIP_OK) eqn:H1; cbn [negb].
  - pose proof (proj1 (Z.eqb_eq _ _) H1) as H1'.
    destruct (zip_result E (k + 1) =? ZIP_OK) eqn:H2; cbn [negb fst snd].
    + pose proof (proj1 (Z.eqb_eq _ _) H2) as H2'.
      split; [tauto|]. split.
      { unfold entry_open; cbn [fold_left entry_step]; rewrite ?H1; reflexivity. }
      split; [congruence|].
      intros Hlen _; cbn [written_bytes flat_map app]; rewrite H2.
      rewrite app_nil_r, to_unsigned_small, Nat2Z.id by lia.
      apply firstn_all.
    + pose proof (proj1 (Z.eqb_neq _ _) H2) as H2'.
      split; [split; [discriminate | tauto]|]. split.
      { unfold entry_open; cbn [fold_left entry_step]; rewrite ?H1; reflexivity. }
      split; [congruence | discriminate].
  - pose proof (proj1 (Z.eqb_neq _ _) H1) as H1'; cbn [fst snd].
    split; [split; [discriminate | tauto]|]. split.
    { unfold entry_open; cbn [fold_left entry_step]; rewrite ?H1; reflexivity. }
    split; [intros _; split; reflexivity | discriminate].
Qed.

Lemma add_file_contents_result_witness :
  written_bytes (snd (add_file_contents env_tree CONFIG_NAME (lit "abc") 0%nat))
  = lit "abc".
Proof.
  destruct (add_file_contents_result env_tree CONFIG_NAME (lit "abc") 0%nat)
    as (_ & _ & _ & H).
  apply H; reflexivity.
Defined.

Lemma entry_open_app (l1 l2 : list call) :
  entry_open l1 = false -> entry_open (l1 ++ l2) = entry_open l2.
Proof. unfold entry_open; rewrite fold_left_app; now intros ->. Qed.

Lemma add_file_path_entry_closed (E : Env) (name path : str) (k : nat) :
  entry_open (snd (add_file_path E name path k)) = false.
Proof.
  pose proof (add_file_path_run E name path k) as Hrun.
  destruct (open64 E path) as [f|]; [|now rewrite Hrun].
  destruct (fstat_mode f) as [st_mode|]; [|now rewrite Hrun].
  destruct Hrun as (rc & b & tail & -> & Htail); cbn [snd].
  unfold entry_open; rewrite fold_left_app.
  destruct Htail as [(Hrc & _ & ->)|(_ & Hs)].
  - cbn. now assert ((rc =? ZIP_OK) = false) as -> by (now apply Z.eqb_neq).
  - exact (streamed_entry_closed Hs _).
Qed.

(** X4.  Whatever the node and the environment, [on_reached_file] opens
    at most one entry and leaves no entry record open. *)
Theorem on_reached_file_entry_closed
    (E : Env) (_path : str) (_curr : WalkNode) (k : nat) :
  entry_open (snd (on_reached_file E _path _curr k)) = false
  /\ (length (opened_entries (snd (on_reached_file E _path _curr k))) <= 1)%nat.
Proof.
  rewrite on_reached_file_run.
  destruct (substr (fts_path _curr) (length _path + 1)) as [name|];
    [|split; [reflexivity | cbn; lia]].
  destruct (str_eqb name TEMPLATE_NAME).
  - destruct (file_read_all E (fts_accpath _curr)) as [data|];
      [|split; [reflexivity | cbn; lia]].
    cbn [snd]; split.
    + change (entry_open (?a :: ?b :: ?l)) with (entry_open l).
      apply add_file_contents_entry_closed.
    + change (opened_entries (?a :: ?b :: ?l)) with (opened_entries l).
      rewrite add_file_contents_opened; cbn; lia.
  - cbn [snd]; split.
    + change (entry_open (?a :: ?l)) with (entry_open l).
      apply add_file_path_entry_closed.
    + change (opened_entries (?a :: ?l)) with (opened_entries l).
      pose proof (add_file_path_run E name (fts_accpath _curr) (k + 1)%nat)
        as Hrun.
      destruct (open64 E (fts_accpath _curr)) as [f|] eqn:Ho;
        [|rewrite Hrun; cbn; lia].
      destruct (fstat_mode f) as [st_mode|] eqn:Hf;
        [|rewrite Hrun; cbn; lia].
      rewrite (@add_file_path_opened E name _ (k + 1)%nat f st_mode Ho Hf).
      cbn; lia.
Qed.

(** X5.  [on_reached_file] throws, the [substr] being out of range,
    exactly when the path of the node is not longer than the root; it has
    made no call then. *)
Theorem on_reached_file_throws
    (E : Env) (_path : str) (_curr : WalkNode) (k : nat) :
  (fst (on_reached_file E _path _curr k) = None
   <-> (length (fts_path _curr) <= length _path)%nat)
  /\ (fst (on_reached_file E _path _curr k) = None ->
      snd (on_reached_file E _path _curr k) = []).
Proof.
  rewrite on_reached_file_run; unfold substr.
  destruct (length _path + 1 <=? length (fts_path _curr))%nat eqn:Hlen.
  - apply Nat.leb_le in Hlen.
    destruct (str_eqb _ TEMPLATE_NAME);
      [destruct (file_read_all E (fts_accpath _curr))|];
      cbn [fst snd]; (split; [split; [discriminate | lia] | discriminate]).
  - apply Nat.leb_gt in Hlen; cbn [fst snd].
    split; [split; [lia | reflexivity] | reflexivity].
Qed.

(** X6.  [on_reached_file] opens no entry exactly when the path of the
    node is not longer than the root, or the node is the template and
    cannot be read, or it is another file that cannot be opened or whose
    status cannot be read; for the unreadable template it returns 0, the
    [false] of the code, and not [FTS_Fail]. *)
Theorem on_reached_file_adds_nothing
    (E : Env) (_path : str) (_curr : WalkNode) (k : nat) :
  (opened_entries (snd (on_reached_file E _path _curr k)) = []
   <-> match substr (fts_path _curr) (length _path + 1) with
       | None => True
       | Some name =>
           if str_eqb name TEMPLATE_NAME
           then file_read_all E (fts_accpath _curr) = None
           else match open64 E (fts_accpath _curr) with
                | None => True
                | Some f => fstat_mode f = None
                end
       end)
  /\ (substr (fts_path _curr) (length _path + 1) = Some TEMPLATE_NAME ->
      file_read_all E (fts_accpath _curr) = None ->
      fst (on_reached_file E _path _curr k) = Some 0).
Proof.
  rewrite on_reached_file_run.
  destruct (substr (fts_path _curr) (length _path + 1)) as [name|];
    [|split; [cbn; tauto | discriminate]].
  split.
  - destruct (str_eqb name TEMPLATE_NAME).
    + destruct (file_read_all E (fts_accpath _curr)) as [data|];
        [|cbn; tauto].
      cbn [snd].
      change (opened_entries (?a :: ?b :: ?l)) with (opened_entries l).
      rewrite add_file_contents_opened; split; discriminate.
    + cbn [snd].
      change (opened_entries (?a :: ?l)) with (opened_entries l).
      pose proof (add_file_path_run E name (fts_accpath _curr) (k + 1)%nat)
        as Hrun.
      destruct (open64 E (fts_accpath _curr)) as [f|] eqn:Ho;
        [|rewrite Hrun; cbn; tauto].
      destruct (fstat_mode f) as [st_mode|] eqn:Hf;
        [|rewrite Hrun; cbn; tauto].
      rewrite (@add_file_path_opened E name _ (k + 1)%nat f st_mode Ho Hf).
      split; discriminate.
  - intros [= ->] Hread; rewrite str_eqb_refl, Hread; reflexivity.
Qed.

Lemma on_reached_file_adds_nothing_witness :
  fst (on_reached_file env_empty (lit "/tmp/aroma") template_node 0%nat)
  = Some 0.
Proof.
  destruct (on_reached_file_adds_nothing env_empty (lit "/tmp/aroma")
              template_node 0%nat) as [_ H].
  apply H; reflexivity.
Defined.

Lemma on_reached_file_throws_witness :
  on_reached_file env_tree (lit "/tmp/aroma") root_node 0%nat = (None, []).
Proof.
  destruct (on_reached_file_throws env_tree (lit "/tmp/aroma") root_node 0%nat)
    as [[_ Hnone] Hcalls].
  assert (H : fst (on_reached_file env_tree (lit "/tmp/aroma") root_node 0%nat)
              = None) by (apply Hnone; cbn; lia).
  specialize (Hcalls H).
  destruct (on_reached_file env_tree (lit "/tmp/aroma") root_node 0%nat);
    cbn in *; now subst.
Defined.

(** ** The template rewrite *)

Local Close Scope Z_scope.

Lemma forallb_firstn (P : ascii -> bool) (n : nat) (s : str) :
  forallb P s = true -> forallb P (firstn n s) = true.
Proof.
  intros H; rewrite <- (firstn_skipn n s), forallb_app in H.
  now apply andb_true_iff in H as [H _].
Qed.

Lemma forallb_skipn (P : ascii -> bool) (n : nat) (s : str) :
  forallb P s = true -> forallb P (skipn n s) = true.
Proof.
  intros H; rewrite <- (firstn_skipn n s), forallb_app in H.
  now apply andb_true_iff in H as [_ H].
Qed.

(** A substitution keeps what holds of every character of the string and
    of the inserted text. *)
Lemma replace_all_forallb (P : ascii -> bool) (s from to : str) :
  forallb P s = true -> forallb P to = true ->
  forallb P (replace_all s from to) = true.
Proof.
  intros Hs Hto; unfold replace_all; destruct from as [|f from]; [exact Hs|].
  generalize (S (length s)); intros fuel; revert s Hs.
  induction fuel as [|fuel IH]; intros s Hs; [exact Hs|].
  cbn [replace_loop]; destruct (find (f :: from) s) as [pos|]; [|exact Hs].
  rewrite !forallb_app, Hto, (forallb_firstn _ _ _ Hs), IH;
    [reflexivity | now apply forallb_skipn].
Qed.

(** X7.  When neither the version nor the ids and names of the ROMs
    contain a tab, the output of [generate_aroma_config] contains none,
    whatever the input. *)
Theorem generate_aroma_config_no_tab (E : Env) (data : str) :
  values_no_tab E -> no_tab (generate_aroma_config E data) = true.
Proof.
  intros Hv; unfold generate_aroma_config.
  pose proof (token_value_no_tab TokVersion Hv) as H1.
  pose proof (token_value_no_tab TokMenuItems Hv) as H2.
  pose proof (token_value_no_tab TokSelectionItems Hv) as H3.
  pose proof (token_value_no_tab TokFirstIndex Hv) as H4.
  pose proof (token_value_no_tab TokLastIndex Hv) as H5.
  cbn [token_value] in *.
  do 5 (apply replace_all_forallb; [|assumption]).
  apply escape_no_tab.
Qed.

Lemma generate_aroma_config_no_tab_witness :
  no_tab (generate_aroma_config env_two (flatten sample_template)) = true.
Proof.
  apply generate_aroma_config_no_tab.
  split; [reflexivity|].
  intros rom [<-|[<-|[]]]; split; reflexivity.
Defined.

(** X8.  A buffer without token, every [@] of which stands between two
    characters that are no upper-case letter, underscore or [@], is only
    escaped: the output is the input with each tab replaced, whatever the
    ROMs and the version. *)
Theorem generate_aroma_config_inert (E : Env) (data : str) :
  inert data = true ->
  generate_aroma_config E data
  = replace_all data (c_literal "\t") (c_literal "\\t").
Proof.
  intros Hd; unfold generate_aroma_config.
  pose proof (guarded_escape _ _ Hd) as He.
  change TOKEN_VERSION with (token_text TokVersion).
  change TOKEN_MENU_ITEMS with (token_text TokMenuItems).
  change TOKEN_SELECTION_ITEMS with (token_text TokSelectionItems).
  change TOKEN_FIRST_INDEX with (token_text TokFirstIndex).
  change TOKEN_LAST_INDEX with (token_text TokLastIndex).
  rewrite (replace_all_inert_id TokVersion _ _ He).
  rewrite (replace_all_inert_id TokMenuItems _ _ He).
  rewrite (replace_all_inert_id TokSelectionItems _ _ He).
  rewrite (replace_all_inert_id TokFirstIndex _ _ He).
  now rewrite (replace_all_inert_id TokLastIndex _ _ He).
Qed.

Lemma generate_aroma_config_inert_witness :
  generate_aroma_config env_two (c_literal "a\tb @ c")
  = c_literal "a\\tb @ c".
Proof.
  rewrite generate_aroma_config_inert; reflexivity.
Defined.

(** The loop appends one selection block per ROM, numbered from [i + 3]. *)
Lemma rom_items_selection (E : Env) (roms : list Rom.t) :
  forall (s : nat) (menu sel : str),
    (N.of_nat s + N.of_nat (length roms) + 2 < 2 ^ size_bits E)%N ->
    snd (rom_items E (N.of_nat s) roms menu sel)
    = sel ++ concat
               (map (fun jr =>
                       selection_item (N.of_nat (fst jr) + 3)
                         (Rom.id (snd jr)) (rom_name E (snd jr)))
                    (combine (seq s (length roms)) roms)).
Proof.
  induction roms as [|rom roms IH]; intros s menu sel Hw.
  - cbn; now rewrite app_nil_r.
  - cbn [length] in Hw.
    cbn [rom_items length seq combine map concat fst snd].
    replace (N.of_nat s + 1)%N with (N.of_nat (S s)) by lia.
    rewrite IH by lia.
    rewrite !size_add_small by (rewrite ?size_add_small; lia).
    replace (N.of_nat s + 2 + 1)%N with (N.of_nat s + 3)%N by lia.
    now rewrite <- app_assoc.
Qed.

(** X9.  When [size_t] is wide enough for 2 + N, the selection-items
    replacement is the concatenation, in the order of the ROM list, of one
    block per ROM, the block of the ROM at index j testing the selection
    against j + 3 and setting [romid] and [romname] to its id and its
    name; with at least one ROM the last of these numbers is the last index
    substituted, as 3 is the first. *)
Theorem selection_items_positions (E : Env) :
  (N.of_nat (length (installed E)) + 2 < 2 ^ size_bits E)%N ->
  rom_selection_items E
  = concat (map (fun jr =>
                   selection_item (N.of_nat (fst jr) + 3)
                     (Rom.id (snd jr)) (rom_name E (snd jr)))
                (combine (seq 0 (length (installed E))) (installed E)))
  /\ first_index E = format_zu (N.of_nat 0 + 3)
  /\ (installed E <> [] ->
      last_index E = format_zu (N.of_nat (length (installed E) - 1) + 3)).
Proof.
  intros Hw; split; [|split].
  - unfold rom_selection_items.
    change 0%N with (N.of_nat 0).
    rewrite rom_items_selection by (cbn; lia). reflexivity.
  - reflexivity.
  - intros Hne; rewrite last_index_eq, size_add_small by lia.
    f_equal; destruct (installed E); [congruence | cbn [length]; lia].
Qed.

Lemma selection_items_positions_witness :
  rom_selection_items env_two
  = selection_item 3 (lit "primary") (lit "primary")
      ++ selection_item 4 (lit "dual") (lit "My ROM")
  /\ last_index env_two = format_zu 4.
Proof.
  destruct (selection_items_positions env_two) as (H1 & _ & H3);
    [vm_compute; reflexivity|].
  split; [rewrite H1; vm_compute; reflexivity|].
  rewrite H3; [reflexivity | discriminate].
Defined.

(** ** The other actions of [utilities] *)

Lemma ubind_run {A B} (m : U A) (f : A -> U B) (k : nat) :
  ubind m f k = (fst (f (fst (m k)) (k + length (snd (m k)))),
                 snd (m k) ++ snd (f (fst (m k)) (k + length (snd (m k))))).
Proof.
  unfold ubind; destruct (m k) as [a l1]; cbn [fst snd].
  now destruct (f a (k + length l1)).
Qed.

Lemma wipe_directory_print_run (S : Sys) (m : str) (wipe_media : bool) (k : nat) :
  wipe_directory_print S m wipe_media k
  = (sys_result S (k + 1),
     [OpLogV; OpWipeDirectory m wipe_media (sys_result S (k + 1)); OpLogV]).
Proof. reflexivity. Qed.

Lemma delete_recursive_print_run (S : Sys) (path : str) (k : nat) :
  delete_recursive_print S path k
  = (sys_result S (k + 1),
     [OpLogV; OpDeleteRecursive path (sys_result S (k + 1)); OpLogV]).
Proof. reflexivity. Qed.

Lemma codename_matches_false (p1 p2 c : str) :
  codename_matches p1 p2 c = false <-> c <> p1 /\ c <> p2.
Proof.
  unfold codename_matches; rewrite orb_false_iff.
  split.
  - intros [H1 H2]; split; intros ->;
      [rewrite str_eqb_refl in H1 | rewrite str_eqb_refl in H2]; discriminate.
  - intros [H1 H2]; split.
    + destruct (str_eqb p1 c) eqn:He; [|reflexivity].
      apply str_eqb_eq in He; congruence.
    + destruct (str_eqb p2 c) eqn:He; [|reflexivity].
      apply str_eqb_eq in He; congruence.
Qed.

Lemma no_codename_matches (p1 p2 : str) (cs : list str) :
  (forall c, In c cs -> c <> p1 /\ c <> p2) ->
  existsb (codename_matches p1 p2) cs = false.
Proof.
  induction cs as [|c cs IH]; intros H; [reflexivity|].
  cbn [existsb]; rewrite IH by (intros c' Hc'; apply H; now right).
  rewrite (proj2 (codename_matches_false p1 p2 c)); [reflexivity|].
  apply H; now left.
Qed.

Lemma some_codename_matches (p1 p2 : str) (cs : list str) :
  (exists c, In c cs /\ (c = p1 \/ c = p2)) ->
  existsb (codename_matches p1 p2) cs = true.
Proof.
  intros (c & Hc & Heq); apply existsb_exists; exists c; split; [exact Hc|].
  unfold codename_matches; destruct Heq as [->| ->];
    rewrite str_eqb_refl; [reflexivity | apply orb_true_r].
Qed.

(** The loop stops at the first device that matches. *)
Lemma find_device_first (p1 p2 : str) (before after : list Device.t)
    (d : Device.t) :
  (forall d', In d' before ->
     forall c, In c (Device.codenames d') -> c <> p1 /\ c <> p2) ->
  (exists c, In c (Device.codenames d) /\ (c = p1 \/ c = p2)) ->
  find_device p1 p2 (before ++ d :: after) = Some d.
Proof.
  intros Hbefore Hd; induction before as [|d' before IH]; cbn [app find_device].
  - now rewrite some_codename_matches.
  - rewrite no_codename_matches by (apply Hbefore; now left).
    apply IH; intros d0 H0; apply Hbefore; now right.
Qed.

Lemma find_device_none (p1 p2 : str) (ds : list Device.t) :
  (forall d, In d ds ->
     forall c, In c (Device.codenames d) -> c <> p1 /\ c <> p2) ->
  find_device p1 p2 ds = None.
Proof.
  induction ds as [|d ds IH]; intros H; [reflexivity|].
  cbn [find_device]; rewrite no_codename_matches by (apply H; now left).
  apply IH; intros d0 H0; apply H; now right.
Qed.

(** X10.  [switch_rom] decides on the first device, in the order of the
    list, one of whose codenames is the value of [ro.product.device] or of
    [ro.build.product]: it calls [action_choose_rom] once, with the first
    boot block device and the base directories of that device, and returns
    its result; when that device has no boot block device it returns
    [false] without looking at the devices after it. *)
Theorem switch_rom_first_device
    (S : Sys) (rom_id : str) (k : nat)
    (before after : list Device.t) (d : Device.t) :
  devices S = before ++ d :: after ->
  (forall d', In d' before ->
     forall c, In c (Device.codenames d') ->
       c <> property S (lit "ro.product.device")
       /\ c <> property S (lit "ro.build.product")) ->
  (exists c, In c (Device.codenames d)
     /\ (c = property S (lit "ro.product.device")
         \/ c = property S (lit "ro.build.product"))) ->
  filter changes (snd (switch_rom S rom_id k))
  = match Device.bootBlockDevs d with
    | [] => []
    | block_dev :: _ =>
        [OpChooseRom rom_id block_dev (Device.blockDevBaseDirs d)
           (fst (switch_rom S rom_id k))]
    end
  /\ (Device.bootBlockDevs d = [] -> fst (switch_rom S rom_id k) = false).
Proof.
  intros Hdevs Hbefore Hd; unfold switch_rom.
  rewrite Hdevs, (@find_device_first _ _ before after d Hbefore Hd).
  destruct (Device.bootBlockDevs d) as [|block_dev rest].
  - split; [reflexivity | intros _; reflexivity].
  - split; [reflexivity | discriminate].
Qed.

Lemma switch_rom_first_device_witness :
  filter changes (snd (switch_rom sys_sample (lit "dual") 0))
  = [OpChooseRom (lit "dual") (lit "/dev/block/mmcblk0p20")
       [lit "/dev/block/platform"] true].
Proof.
  destruct (@switch_rom_first_device sys_sample (lit "dual") 0
              [dev_other] [dev_jflte_noboot] dev_jflte) as [H _].
  - reflexivity.
  - intros d' [<-|[]] c [<-|[]]; split; discriminate.
  - exists (lit "jflte"); split; [now left | now right].
  - exact H.
Defined.

(** X11.  When no codename of any device is the value of
    [ro.product.device] or of [ro.build.product], [switch_rom] returns
    [false] and changes nothing. *)
Theorem switch_rom_unknown_device (S : Sys) (rom_id : str) (k : nat) :
  (forall d, In d (devices S) ->
     forall c, In c (Device.codenames d) ->
       c <> property S (lit "ro.product.device")
       /\ c <> property S (lit "ro.build.product")) ->
  fst (switch_rom S rom_id k) = false
  /\ filter changes (snd (switch_rom S rom_id k)) = [].
Proof.
  intros H; unfold switch_rom; rewrite (@find_device_none _ _ (devices S) H).
  split; reflexivity.
Qed.

Lemma switch_rom_unknown_device_witness :
  switch_rom sys_unknown (lit "dual") 0
  = (false, [OpGetProperty (lit "ro.product.device");
             OpGetProperty (lit "ro.build.product");
             OpLog LogD; OpLog LogD; OpLog LogE]).
Proof.
  destruct (switch_rom_unknown_device sys_unknown (lit "dual") 0) as [H _].
  - intros d [<-|[]] c [<-|[]]; split; discriminate.
  - reflexivity.
Defined.

(** X12.  For a ROM that is found, [wipe_dalvik_cache] deletes the
    [dalvik-cache] of the cache path only after that of the data path was
    deleted with success, and returns [true] exactly when both deletions
    returned [true]. *)
Theorem wipe_dalvik_cache_short_circuit
    (S : Sys) (rom_id : str) (k : nat) (rom : Rom.t) :
  find_by_id S rom_id = Some rom ->
  let data := Rom.data_path rom ++ lit "/dalvik-cache" in
  let cache := Rom.cache_path rom ++ lit "/dalvik-cache" in
  (filter changes (snd (wipe_dalvik_cache S rom_id k))
   = [OpDeleteRecursive data false]
   /\ fst (wipe_dalvik_cache S rom_id k) = false)
  \/ (exists r,
        filter changes (snd (wipe_dalvik_cache S rom_id k))
        = [OpDeleteRecursive data true; OpDeleteRecursive cache r]
        /\ fst (wipe_dalvik_cache S rom_id k) = r).
Proof.
  intros Hrom data cache; unfold wipe_dalvik_cache; rewrite Hrom.
  rewrite ubind_run, delete_recursive_print_run; cbn [fst snd length].
  destruct (sys_result S (k + 1)).
  - right; eexists; split; reflexivity.
  - left; split; reflexivity.
Qed.

Lemma wipe_dalvik_cache_short_circuit_witness :
  filter changes (snd (wipe_dalvik_cache sys_sample (lit "dual") 0))
  = [OpDeleteRecursive (lit "/data/multiboot/dual/data/dalvik-cache") false].
Proof.
  destruct (@wipe_dalvik_cache_short_circuit sys_sample (lit "dual") 0
              rom_dual eq_refl) as [[H _]|[r [H _]]].
  - exact H.
  - discriminate H.
Defined.

(** X13.  For a ROM that is found, [wipe_system] and [wipe_cache] wipe the
    system path and the cache path with their media directory and then try
    to remove the path; [wipe_data] wipes the data path without its media
    directory and then tries to remove first [<data>/media], then the data
    path.  Each returns the result of the wipe, whatever the removals
    do. *)
Theorem wipe_directory_calls
    (S : Sys) (rom_id : str) (k : nat) (rom : Rom.t) :
  find_by_id S rom_id = Some rom ->
  filter changes (snd (wipe_system S rom_id k))
  = [OpWipeDirectory (Rom.system_path rom) true (fst (wipe_system S rom_id k));
     OpRemove (c_str (Rom.system_path rom))]
  /\ filter changes (snd (wipe_cache S rom_id k))
     = [OpWipeDirectory (Rom.cache_path rom) true (fst (wipe_cache S rom_id k));
        OpRemove (c_str (Rom.cache_path rom))]
  /\ filter changes (snd (wipe_data S rom_id k))
     = [OpWipeDirectory (Rom.data_path rom) false (fst (wipe_data S rom_id k));
        OpRemove (c_str (Rom.data_path rom ++ lit "/media"));
        OpRemove (c_str (Rom.data_path rom))].
Proof.
  intros Hrom; unfold wipe_system, wipe_cache, wipe_data; rewrite Hrom.
  repeat split.
Qed.

Lemma wipe_directory_calls_witness :
  filter changes (snd (wipe_data sys_sample (lit "dual") 0))
  = [OpWipeDirectory (lit "/data/multiboot/dual/data") false false;
     OpRemove (lit "/data/multiboot/dual/data/media");
     OpRemove (lit "/data/multiboot/dual/data")].
Proof.
  destruct (@wipe_directory_calls sys_sample (lit "dual") 0 rom_dual eq_refl)
    as (_ & _ & H).
  rewrite H; reflexivity.
Defined.

(** *** The dispatch of [utilities_main] *)

Local Open Scope Z_scope.

Lemma switch_rom_acted (S : Sys) (rom_id : str) (k : nat) :
  fst (switch_rom S rom_id k) = true
  <-> existsb changes (snd (switch_rom S rom_id k)) = true
      /\ existsb op_failed (snd (switch_rom S rom_id k)) = false.
Proof.
  unfold switch_rom.
  destruct (find_device _ _ (devices S)) as [d|];
    [|cbn; split; [discriminate | intros [H _]; discriminate]].
  destruct (Device.bootBlockDevs d) as [|b rest];
    [cbn; split; [discriminate | intros [H _]; discriminate]|].
  cbn. destruct (sys_result S (k + 1 + 1 + 1 + 1)); cbn; intuition congruence.
Qed.

Lemma wipe_system_acted (S : Sys) (rom_id : str) (k : nat) :
  fst (wipe_system S rom_id k) = true
  <-> existsb changes (snd (wipe_system S rom_id k)) = true
      /\ existsb op_failed (snd (wipe_system S rom_id k)) = false.
Proof.
  unfold wipe_system; destruct (find_by_id S rom_id) as [rom|];
    [|cbn; split; [discriminate | intros [H _]; discriminate]].
  cbn. destruct (sys_result S (k + 1)); cbn; intuition congruence.
Qed.

Lemma wipe_cache_acted (S : Sys) (rom_id : str) (k : nat) :
  fst (wipe_cache S rom_id k) = true
  <-> existsb changes (snd (wipe_cache S rom_id k)) = true
      /\ existsb op_failed (snd (wipe_cache S rom_id k)) = false.
Proof.
  unfold wipe_cache; destruct (find_by_id S rom_id) as [rom|];
    [|cbn; split; [discriminate | intros [H _]; discriminate]].
  cbn. destruct (sys_result S (k + 1)); cbn; intuition congruence.
Qed.

Lemma wipe_data_acted (S : Sys) (rom_id : str) (k : nat) :
  fst (wipe_data S rom_id k) = true
  <-> existsb changes (snd (wipe_data S rom_id k)) = true
      /\ existsb op_failed (snd (wipe_data S rom_id k)) = false.
Proof.
  unfold wipe_data; destruct (find_by_id S rom_id) as [rom|];
    [|cbn; split; [discriminate | intros [H _]; discriminate]].
  cbn. destruct (sys_result S (k + 1)); cbn; intuition congruence.
Qed.

Lemma wipe_dalvik_cache_acted (S : Sys) (rom_id : str) (k : nat) :
  fst (wipe_dalvik_cache S rom_id k) = true
  <-> existsb changes (snd (wipe_dalvik_cache S rom_id k)) = true
      /\ existsb op_failed (snd (wipe_dalvik_cache S rom_id k)) = false.
Proof.
  unfold wipe_dalvik_cache; destruct (find_by_id S rom_id) as [rom|];
    [|cbn; split; [discriminate | intros [H _]; discriminate]].
  rewrite ubind_run, delete_recursive_print_run; cbn [fst snd length].
  destruct (sys_result S (k + 1)).
  - rewrite delete_recursive_print_run; cbn.
    destruct (sys_result S (k + 3 + 1)); cbn; intuition congruence.
  - cbn; intuition congruence.
Qed.

Lemma wipe_multiboot_acted (S : Sys) (rom_id : str) (k : nat) :
  fst (wipe_multiboot S rom_id k) = true
  <-> existsb changes (snd (wipe_multiboot S rom_id k)) = true
      /\ existsb op_failed (snd (wipe_multiboot S rom_id k)) = false.
Proof.
  unfold wipe_multiboot; destruct (find_by_id S rom_id) as [rom|];
    [|cbn; split; [discriminate | intros [H _]; discriminate]].
  cbn. destruct (sys_result S (k + 1)); cbn; intuition congruence.
Qed.

Lemma action_status (X : U bool) (k : nat) :
  (fst (X k) = true
   <-> existsb changes (snd (X k)) = true
       /\ existsb op_failed (snd (X k)) = false) ->
  let main := ubind X (fun r => uret (if r then EXIT_SUCCESS else EXIT_FAILURE))
  in
  fst (main k) = EXIT_SUCCESS
  <-> existsb changes (snd (main k)) = true
      /\ existsb op_failed (snd (main k)) = false.
Proof.
  intros H main; unfold main; rewrite ubind_run; cbn [uret fst snd].
  rewrite app_nil_r, <- H.
  destruct (fst (X k)); split; try reflexivity; discriminate.
Qed.

(** X14.  [utilities_main] returns [EXIT_SUCCESS] exactly when it was
    given the help option, or when it was given no option, made a call
    that changes something and every call that reports a result reported
    success. *)
Theorem utilities_main_status (S : Sys) (opt : Z) (operands : list str) (k : nat) :
  fst (utilities_main S opt operands k) = EXIT_SUCCESS
  <-> opt = 104
      \/ (opt = -1
          /\ existsb changes (snd (utilities_main S opt operands k)) = true
          /\ existsb op_failed (snd (utilities_main S opt operands k)) = false).
Proof.
  unfold utilities_main.
  destruct (opt =? -1) eqn:Hopt; cbn [negb].
  - apply Z.eqb_eq in Hopt; subst opt.
    assert (Hiff : forall P : Prop, P <-> (-1 = 104 \/ (-1 = -1 /\ P)))
      by (intros P; split; [intros HP; right; now split
                           | intros [H|[_ HP]]; [discriminate | exact HP]]).
    rewrite <- Hiff; clear Hiff.
    destruct operands as [|action args];
      [cbn; split; [discriminate | intros [H _]; discriminate]|].
    destruct ((str_eqb action (lit "generate")
               && negb (length (action :: args) =? 3)%nat)
              || (negb (str_eqb action (lit "generate"))
                  && negb (length (action :: args) =? 2)%nat));
      [cbn; split; [discriminate | intros [H _]; discriminate]|].
    apply action_status.
    destruct (str_eqb action (lit "generate")).
    { cbn. destruct (sys_result S k); cbn; intuition congruence. }
    destruct (str_eqb action (lit "switch")); [apply switch_rom_acted|].
    destruct (str_eqb action (lit "wipe-system")); [apply wipe_system_acted|].
    destruct (str_eqb action (lit "wipe-cache")); [apply wipe_cache_acted|].
    destruct (str_eqb action (lit "wipe-data")); [apply wipe_data_acted|].
    destruct (str_eqb action (lit "wipe-dalvik-cache"));
      [apply wipe_dalvik_cache_acted|].
    destruct (str_eqb action (lit "wipe-multiboot"));
      [apply wipe_multiboot_acted|].
    cbn; split; [discriminate | intros [H _]; discriminate].
  - apply Z.eqb_neq in Hopt.
    destruct (opt =? 104) eqn:Hh.
    + apply Z.eqb_eq in Hh; cbn; split; [now left | reflexivity].
    + apply Z.eqb_neq in Hh; cbn; split; [discriminate|].
      intros [H|[H _]]; congruence.
Qed.

(** X15.  [utilities_main] makes a call that changes something only when
    it was given no option and either [generate] with exactly two more
    operands or one of the six other actions with exactly one more
    operand. *)
Theorem utilities_main_guard
    (S : Sys) (opt : Z) (operands : list str) (k : nat) (o : op) :
  In o (snd (utilities_main S opt operands k)) -> changes o = true ->
  opt = -1
  /\ ((exists dir out, operands = [lit "generate"; dir; out])
      \/ (exists action rom_id,
             operands = [action; rom_id] /\ In action ACTIONS)).
Proof.
  intros Hin Hch; unfold utilities_main in Hin.
  assert (Husage : forall e (v : Z),
             In o (snd (ubind (utilities_usage e) (fun _ => uret v) k)) ->
             False).
  { intros e v [<-|[]]; discriminate. }
  destruct (opt =? -1) eqn:Hopt; cbn [negb] in Hin;
    [|destruct (opt =? 104); destruct (Husage _ _ Hin)].
  apply Z.eqb_eq in Hopt; split; [exact Hopt|].
  destruct operands as [|action args]; [destruct (Husage _ _ Hin)|].
  destruct (str_eqb action (lit "generate")) eqn:Hg.
  - apply str_eqb_eq in Hg; subst action.
    destruct args as [|dir [|out [|x rest]]];
      try (cbn in Hin; destruct Hin as [<-|[]]; discriminate).
    left; now exists dir, out.
  - destruct args as [|rom_id [|x rest]];
      try (cbn in Hin; destruct Hin as [<-|[]]; discriminate).
    right; exists action, rom_id; split; [reflexivity|].
    cbn [andb orb negb length Nat.eqb] in Hin.
    unfold ACTIONS.
    destruct (str_eqb action (lit "switch")) eqn:H1;
      [apply str_eqb_eq in H1; subst; cbn; auto 10|].
    destruct (str_eqb action (lit "wipe-system")) eqn:H2;
      [apply str_eqb_eq in H2; subst; cbn; auto 10|].
    destruct (str_eqb action (lit "wipe-cache")) eqn:H3;
      [apply str_eqb_eq in H3; subst; cbn; auto 10|].
    destruct (str_eqb action (lit "wipe-data")) eqn:H4;
      [apply str_eqb_eq in H4; subst; cbn; auto 10|].
    destruct (str_eqb action (lit "wipe-dalvik-cache")) eqn:H5;
      [apply str_eqb_eq in H5; subst; cbn; auto 10|].
    destruct (str_eqb action (lit "wipe-multiboot")) eqn:H6;
      [apply str_eqb_eq in H6; subst; cbn; auto 10|].
    exfalso; cbn in Hin; destruct Hin as [<-|[]]; discriminate.
Qed.

Lemma utilities_main_guard_witness :
  In (OpChooseRom (lit "dual") (lit "/dev/block/mmcblk0p20")
        [lit "/dev/block/platform"] true)
     (snd (utilities_main sys_sample (-1) [lit "switch"; lit "dual"] 0%nat))
  /\ In (lit "switch") ACTIONS.
Proof.
  assert (Hin : In (OpChooseRom (lit "dual") (lit "/dev/block/mmcblk0p20")
                      [lit "/dev/block/platform"] true)
                   (snd (utilities_main sys_sample (-1)
                           [lit "switch"; lit "dual"] 0%nat)))
    by (cbn; auto 10).
  split; [exact Hin|].
  destruct (utilities_main_guard _ _ _ _ _ Hin eq_refl)
    as (_ & [(dir & out & H)|(action & rom_id & H & Hact)]);
    [discriminate H|].
  injection H as <- _; exact Hact.
Defined.

(** X16.  Given one of the five wipe actions with the id of a ROM that is
    not found, [utilities_main] returns [EXIT_FAILURE] without making any
    call. *)
Theorem utilities_main_unknown_rom
    (S : Sys) (action rom_id : str) (k : nat) :
  In action WIPE_ACTIONS -> find_by_id S rom_id = None ->
  utilities_main S (-1) [action; rom_id] k = (EXIT_FAILURE, []).
Proof.
  intros Hact Hrom; unfold utilities_main.
  cbn [Z.eqb negb length Nat.eqb andb orb Pos.eqb].
  destruct Hact as [<-|[<-|[<-|[<-|[<-|[]]]]]];
    cbn [str_eqb lit list_ascii_of_string Ascii.eqb Bool.eqb andb orb negb nth];
    rewrite ubind_run;
    unfold wipe_system, wipe_cache, wipe_data, wipe_dalvik_cache,
      wipe_multiboot; rewrite Hrom; reflexivity.
Qed.

Lemma utilities_main_unknown_rom_witness :
  utilities_main sys_sample (-1) [lit "wipe-data"; lit "missing"] 0%nat
  = (EXIT_FAILURE, []).
Proof.
  apply utilities_main_unknown_rom; [cbn; auto | reflexivity].
Defined.
